(** * core-js-101, [src/05-objects-tasks.js]

    The three tasks of the file: the [Rectangle] constructor, the JSON
    helpers [getJSON] and [fromJSON], and the CSS selector builder.

    The builder is one object literal whose methods mutate [this] and return
    it; every method is embedded as a function from the builder's fields to
    an outcome that carries the fields after the call, whether the call
    returned or threw.  The JSON helpers are one line each over
    [JSON.stringify], [JSON.parse] and [Object.setPrototypeOf]; these runtime
    functions are embedded after ECMAScript. *)

From Stdlib Require Import String Ascii List Bool Arith Lia Floats NArith ZArith.
Import ListNotations.
Open Scope string_scope.
Set Warnings "-register-all".

(** ** The slice of the JavaScript runtime the builder relies on *)

Module Js.

(** What an array slot read can yield here: [undefined] (reading past the
    end), [null] (the placeholder the builder pushes) or a string. *)
Inductive value :=
| undefined
| null
| str (s : string).

(** [new Error(message)]; [new Error()] has the empty message. *)
Inductive exn :=
| Error (message : string).

(** ToBoolean on the values above: the empty string is falsy. *)
Definition truthy (v : value) : bool :=
  match v with
  | str s => negb (s =? "")
  | _ => false
  end.

(** [arr[arr.length - 1]]: the last slot, [undefined] on the empty array. *)
Definition last_slot (arr : list value) : value :=
  last arr undefined.

(** [v.match(/^[chars]/)] as a boolean: the first character of the string
    is one of [chars]. *)
Definition match_first (chars : list ascii) (v : value) : bool :=
  match v with
  | str (String c _) => existsb (Ascii.eqb c) chars
  | _ => false
  end.

(** [v.match(/^::/)] as a boolean. *)
Definition match_colon_colon (v : value) : bool :=
  match v with
  | str (String c1 (String c2 _)) => Ascii.eqb c1 ":" && Ascii.eqb c2 ":"
  | _ => false
  end.

Definition is_null (v : value) : bool :=
  match v with
  | null => true
  | _ => false
  end.

(** [arr[arr.indexOf(null)] = el]: the first [null] slot is overwritten;
    when there is none, [indexOf] is [-1] and the write lands on the
    property ["-1"], which is no element of the array. *)
Fixpoint assign_at_indexOf_null (arr : list value) (el : value) : list value :=
  match arr with
  | [] => []
  | null :: rest => el :: rest
  | v :: rest => v :: assign_at_indexOf_null rest el
  end.

(** The text a slot contributes to [arr.join('')]: [null] and [undefined]
    contribute nothing. *)
Definition slot_text (v : value) : string :=
  match v with
  | str s => s
  | _ => ""
  end.

(** [arr.join('')]. *)
Definition join (arr : list value) : string :=
  String.concat "" (map slot_text arr).

End Js.

(** ** [Rectangle] *)

Module RectangleTask.

(** A JavaScript number is an IEEE 754 binary64 value, and so is a
    primitive [float]; [*] on numbers is [PrimFloat.mul]. *)
Definition number := float.

(** The own data properties [new Rectangle(width, height)] creates. *)
Record rectangle := {
  width : number;
  height : number
}.

(** The constructor called with [new]. *)
Definition Rectangle (width height : number) : rectangle :=
  {| width := width; height := height |}.

(** The arrow function stored in [this.getArea]: it closes over the
    object under construction and reads its two fields when called. *)
Definition getArea (this : rectangle) : number :=
  (width this * height this)%float.

End RectangleTask.

(** ** Numbers and their decimal texts

    What [JSON.parse] and [JSON.stringify] need of the runtime's numbers:
    the Number value of a decimal literal (round to nearest, ties to even)
    and [Number::toString] (the shortest digit string that reads back as
    the same number).  Numbers are binary64 [float]s; the decimal
    arithmetic is exact, on [Z]. *)

Module JsNumber.
#[local] Open Scope list_scope.

(** A JavaScript string: a sequence of UTF-16 code units. *)
Definition text := list N.

(** The code units of an ASCII literal. *)
Definition units (s : string) : text :=
  map N_of_ascii (list_ascii_of_string s).

(** The binary64 value nearest to [(-1)^neg * M * 10^E], for [0 <= M]. *)
Definition to_sf (neg : bool) (M E : Z) : spec_float :=
  match M with
  | Z0 => S754_zero neg
  | Zpos _ =>
      if (0 <=? E)%Z
      then binary_normalize prec emax (cond_Zopp neg (M * 10 ^ E)%Z) 0%Z neg
      else
        let '(q, e', loc) := SFdiv_core_binary prec emax M 0%Z (10 ^ (- E))%Z 0%Z in
        binary_round_aux prec emax neg q e' loc
  | Zneg _ => S754_nan
  end.

(** The Number value of the decimal [(-1)^neg * M * 10^E]. *)
Definition number_of_decimal (neg : bool) (M E : Z) : float :=
  SF2Prim (to_sf neg M E).

(** The decimal digits of a non-negative integer, as code units. *)
Fixpoint digits_loop (fuel : nat) (z : Z) (acc : list N) : list N :=
  match fuel with
  | O => acc
  | S f =>
      let acc' := (Z.to_N (z mod 10) + 48)%N :: acc in
      if (z <? 10)%Z then acc' else digits_loop f (z / 10)%Z acc'
  end.

Definition decimal_digits (z : Z) : list N :=
  digits_loop (S (Z.to_nat (Z.log2 z))) z [].

(** The least [j >= 1] with [den <= num * 10^j]. *)
Fixpoint first_scale (fuel : nat) (j : Z) (num den : Z) : Z :=
  match fuel with
  | O => j
  | S f => if (den <=? num * 10 ^ j)%Z then j else first_scale f (j + 1)%Z num den
  end.

(** The [n] with [10^(n-1) <= num/den < 10^n]. *)
Definition decimal_exponent (num den : Z) : Z :=
  if (den <=? num)%Z
  then Z.of_nat (length (decimal_digits (num / den)))
  else (1 - first_scale 400 1 num den)%Z.

Definition same_finite (m : positive) (e : Z) (f : spec_float) : bool :=
  match f with
  | S754_finite false m' e' => (m =? m')%positive && (e =? e')%Z
  | _ => false
  end.

(** [Number::toString], step 5: the least [k] for which a [k]-digit [s]
    with [s * 10^(n-k)] reading back as [m * 2^e] exists, and of the (at
    most two) such [s] the one nearest to the number. *)
Fixpoint shortest_loop (fuel : nat) (k : Z) (m : positive) (e : Z)
         (num den n0 : Z) : Z * Z * Z :=
  match fuel with
  | O => (Zpos m, k, n0)
  | S f =>
      let A := if (0 <=? k - n0)%Z then (num * 10 ^ (k - n0))%Z else num in
      let B := if (0 <=? k - n0)%Z then den else (den * 10 ^ (n0 - k))%Z in
      let lo := (A / B)%Z in
      let r := (A mod B)%Z in
      let hi := (lo + 1)%Z in
      let ok_lo := same_finite m e (to_sf false lo (n0 - k)%Z) in
      let ok_hi := same_finite m e (to_sf false hi (n0 - k)%Z) in
      let take_hi :=
        if (hi =? 10 ^ k)%Z then (10 ^ (k - 1), k, n0 + 1)%Z else (hi, k, n0) in
      match ok_lo, ok_hi with
      | true, true =>
          match (2 * r ?= B)%Z with
          | Lt => (lo, k, n0)
          | Gt => take_hi
          | Eq => if Z.even lo then (lo, k, n0) else take_hi
          end
      | true, false => (lo, k, n0)
      | false, true => take_hi
      | false, false => shortest_loop f (k + 1)%Z m e num den n0
      end
  end.

Definition shortest (m : positive) (e : Z) : Z * Z * Z :=
  let num := if (0 <=? e)%Z then (Zpos m * 2 ^ e)%Z else Zpos m in
  let den := if (0 <=? e)%Z then 1%Z else (2 ^ (- e))%Z in
  shortest_loop 17 1%Z m e num den (decimal_exponent num den).

Definition zeros (n : Z) : list N := repeat 48%N (Z.to_nat n).

Definition exponent_part (n : Z) : list N :=
  101%N :: (if (0 <=? n - 1)%Z then 43%N else 45%N)
        :: decimal_digits (Z.abs (n - 1)).

(** [Number::toString], steps 6 to 10: plain digits, digits with a point,
    leading zeros, or exponent notation. *)
Definition format (s k n : Z) : list N :=
  let ds := decimal_digits s in
  if ((k <=? n) && (n <=? 21))%Z then ds ++ zeros (n - k)
  else if ((0 <? n) && (n <=? 21))%Z then
    firstn (Z.to_nat n) ds ++ 46%N :: skipn (Z.to_nat n) ds
  else if ((-6 <? n) && (n <=? 0))%Z then
    48%N :: 46%N :: zeros (- n) ++ ds
  else if (k =? 1)%Z then ds ++ exponent_part n
  else firstn 1 ds ++ 46%N :: skipn 1 ds ++ exponent_part n.

Definition Number_toString (x : float) : text :=
  match Prim2SF x with
  | S754_nan => units "NaN"
  | S754_infinity s => units (if s then "-Infinity" else "Infinity")
  | S754_zero _ => units "0"
  | S754_finite s m e =>
      let '(d, k, n) := shortest m e in
      (if s then [45%N] else []) ++ format d k n
  end.

End JsNumber.

(** ** Values, prototypes and [Object.setPrototypeOf] *)

Module JsObject.
#[local] Open Scope list_scope.

(** What a [[Prototype]] slot can hold: [Object.prototype],
    [Array.prototype], [null], or the [prototype] object of some
    constructor. *)
Inductive proto :=
| Object_prototype
| Array_prototype
| proto_null
| prototype_of (constructor_name : string).

(** The values [JSON.parse] can produce (and [JSON.stringify] reads):
    primitives, arrays and ordinary objects.  An object is its prototype and
    its own properties in the order the runtime enumerates them. *)
Inductive jvalue :=
| JNull
| JBool (b : bool)
| JNumber (n : float)
| JString (s : list N)
| JArray (p : proto) (items : list jvalue)
| JObject (p : proto) (props : list (list N * jvalue)).

(** The two exceptions of the JSON helpers; the specification calls
    [SyntaxError] a ParseError. *)
Inductive error :=
| SyntaxError
| TypeError.

Inductive completion (A : Type) :=
| Returns (a : A)
| Throws (e : error).
Arguments Returns {A} a.
Arguments Throws {A} e.

(** [Object.setPrototypeOf(O, p)] for [p] an object or [null]: a
    [TypeError] on [null] ([undefined] does not occur here), a primitive is
    returned as it is, an object gets [p] as its prototype (the objects here
    are fresh and extensible, so the assignment goes through). *)
Definition setPrototypeOf (O : jvalue) (p : proto) : completion jvalue :=
  match O with
  | JNull => Throws TypeError
  | JArray _ items => Returns (JArray p items)
  | JObject _ props => Returns (JObject p props)
  | _ => Returns O
  end.

Fixpoint units_eqb (a b : list N) : bool :=
  match a, b with
  | [], [] => true
  | x :: a', y :: b' => (x =? y)%N && units_eqb a' b'
  | _, _ => false
  end.

Definition is_digit (c : N) : bool := ((48 <=? c) && (c <=? 57))%N.

Definition digits_value (ds : list N) : Z :=
  fold_left (fun acc d => (acc * 10 + Z.of_N (d - 48))%Z) ds 0%Z.

(** An array index: the canonical decimal text of an integer below
    [2^32 - 1]. *)
Definition array_index (k : list N) : option Z :=
  match k with
  | [] => None
  | d :: rest =>
      if forallb is_digit k && (negb (d =? 48)%N || match rest with [] => true | _ => false end)
      then if (digits_value k <=? 4294967294)%Z then Some (digits_value k) else None
      else None
  end.

Fixpoint has_key (k : list N) (props : list (list N * jvalue)) : bool :=
  match props with
  | [] => false
  | (k', _) :: rest => units_eqb k k' || has_key k rest
  end.

Fixpoint replace_value (k : list N) (v : jvalue) (props : list (list N * jvalue)) :=
  match props with
  | [] => []
  | (k', v') :: rest =>
      if units_eqb k k' then (k', v) :: rest else (k', v') :: replace_value k v rest
  end.

Fixpoint insert_index (i : Z) (k : list N) (v : jvalue) (props : list (list N * jvalue)) :=
  match props with
  | [] => [(k, v)]
  | (k', v') :: rest =>
      match array_index k' with
      | Some j => if (i <? j)%Z then (k, v) :: props else (k', v') :: insert_index i k v rest
      | None => (k, v) :: props
      end
  end.

(** [CreateDataProperty] on an ordinary object: an existing key keeps its
    place and takes the new value; a new array index goes among the indices,
    in ascending order, ahead of all other keys; any other new key goes
    last. *)
Definition define_property (props : list (list N * jvalue)) (kv : list N * jvalue) :=
  let (k, v) := kv in
  if has_key k props then replace_value k v props
  else match array_index k with
       | Some i => insert_index i k v props
       | None => props ++ [(k, v)]
       end.

Definition build_object (members : list (list N * jvalue)) :=
  fold_left define_property members [].

End JsObject.

(** ** [JSON.stringify] and [JSON.parse] *)

Module JSON.
Import JsNumber JsObject.
#[local] Open Scope list_scope.

Definition hex_digit (d : N) : N := if (d <? 10)%N then (48 + d)%N else (87 + d)%N.

Definition unicode_escape (u : N) : list N :=
  [92; 117; hex_digit (u / 4096); hex_digit ((u / 256) mod 16);
   hex_digit ((u / 16) mod 16); hex_digit (u mod 16)]%N.

Definition is_lead (u : N) : bool := ((55296 <=? u) && (u <=? 56319))%N.
Definition is_trail (u : N) : bool := ((56320 <=? u) && (u <=? 57343))%N.

(** [QuoteJSONString] on one code unit that is not half of a pair. *)
Definition escape (u : N) : list N :=
  (if u =? 8 then [92; 98]
   else if u =? 9 then [92; 116]
   else if u =? 10 then [92; 110]
   else if u =? 12 then [92; 102]
   else if u =? 13 then [92; 114]
   else if u =? 34 then [92; 34]
   else if u =? 92 then [92; 92]
   else if (u <? 32) || is_lead u || is_trail u then unicode_escape u
   else [u])%N.

(** The quoted text after the opening quote: a leading surrogate followed
    by a trailing one is a code point and is copied, a lone surrogate is
    escaped. *)
Fixpoint quote_body (s : list N) : list N :=
  match s with
  | [] => [34%N]
  | u :: rest =>
      match rest with
      | v :: rest' =>
          if is_lead u && is_trail v then u :: v :: quote_body rest'
          else escape u ++ quote_body rest
      | [] => escape u ++ quote_body rest
      end
  end.

Definition quote (s : list N) : list N := 34%N :: quote_body s.

(** What follows the first element of an array: [,e]... and the closing
    bracket. *)
Fixpoint elements_tail (f : jvalue -> list N) (l : list jvalue) : list N :=
  match l with
  | [] => [93%N]
  | y :: r => 44%N :: f y ++ elements_tail f r
  end.

Fixpoint members_tail (f : jvalue -> list N) (l : list (list N * jvalue)) : list N :=
  match l with
  | [] => [125%N]
  | (k, y) :: r => 44%N :: quote k ++ 58%N :: f y ++ members_tail f r
  end.

(** [JSON.stringify(v)], without replacer and indentation, on values
    without [toJSON]: a number that is not finite is written [null]. *)
Fixpoint stringify (v : jvalue) : list N :=
  match v with
  | JNull => units "null"
  | JBool true => units "true"
  | JBool false => units "false"
  | JNumber n => if is_finite n then Number_toString n else units "null"
  | JString s => quote s
  | JArray _ items =>
      91%N :: match items with
              | [] => [93%N]
              | x :: rest => stringify x ++ elements_tail stringify rest
              end
  | JObject _ props =>
      123%N :: match props with
               | [] => [125%N]
               | (k, x) :: rest =>
                   quote k ++ 58%N :: stringify x ++ members_tail stringify rest
               end
  end.

Definition is_ws (c : N) : bool :=
  ((c =? 32) || (c =? 9) || (c =? 10) || (c =? 13))%N.

Fixpoint skip_ws (s : list N) : list N :=
  match s with
  | c :: r => if is_ws c then skip_ws r else s
  | [] => []
  end.

Fixpoint strip_prefix (lit s : list N) : option (list N) :=
  match lit, s with
  | [], _ => Some s
  | a :: lit', b :: s' => if (a =? b)%N then strip_prefix lit' s' else None
  | _ :: _, [] => None
  end.

Definition hex_value (c : N) : option N :=
  (if (48 <=? c) && (c <=? 57) then Some (c - 48)
   else if (97 <=? c) && (c <=? 102) then Some (c - 87)
   else if (65 <=? c) && (c <=? 70) then Some (c - 55)
   else None)%N.

Definition hex4 (a b c d : N) : option N :=
  match hex_value a, hex_value b, hex_value c, hex_value d with
  | Some x, Some y, Some z, Some w => Some (((x * 16 + y) * 16 + z) * 16 + w)%N
  | _, _, _, _ => None
  end.

Definition simple_escape (e : N) : option N :=
  (if e =? 34 then Some 34
   else if e =? 92 then Some 92
   else if e =? 47 then Some 47
   else if e =? 98 then Some 8
   else if e =? 102 then Some 12
   else if e =? 110 then Some 10
   else if e =? 114 then Some 13
   else if e =? 116 then Some 9
   else None)%N.

Definition cons_to {A B} (a : A) (r : option (list A * B)) : option (list A * B) :=
  match r with
  | Some (l, b) => Some (a :: l, b)
  | None => None
  end.

(** A JSON string after its opening quote: the code units it denotes and
    the text after the closing quote. *)
Fixpoint parse_string_body (s : list N) : option (list N * list N) :=
  match s with
  | [] => None
  | c :: r =>
      if (c =? 34)%N then Some ([], r)
      else if (c =? 92)%N then
        match r with
        | [] => None
        | e :: r2 =>
            if (e =? 117)%N then
              match r2 with
              | a :: b :: c' :: d :: r3 =>
                  match hex4 a b c' d with
                  | Some u => cons_to u (parse_string_body r3)
                  | None => None
                  end
              | _ => None
              end
            else
              match simple_escape e with
              | Some u => cons_to u (parse_string_body r2)
              | None => None
              end
        end
      else if (c <? 32)%N then None
      else cons_to c (parse_string_body r)
  end.

(** The characters number literals are made of.  A literal is read as
    the longest run of them, which must then be a JSON number as a whole:
    such a character right after a number is a syntax error either way. *)
Definition is_number_char (c : N) : bool :=
  (is_digit c || (c =? 45) || (c =? 43) || (c =? 46) || (c =? 101) || (c =? 69))%N.

Fixpoint span (p : N -> bool) (s : list N) : list N * list N :=
  match s with
  | c :: r => if p c then let (a, b) := span p r in (c :: a, b) else ([], s)
  | [] => ([], [])
  end.

Definition sign_of (s : list N) : bool * list N :=
  match s with
  | c :: r => if (c =? 45)%N then (true, r) else (false, s)
  | [] => (false, s)
  end.

Definition int_part (s : list N) : option (list N * list N) :=
  match s with
  | [] => None
  | c :: r =>
      if (c =? 48)%N then Some ([c], r)
      else if is_digit c then Some (span is_digit s)
      else None
  end.

Definition frac_part (s : list N) : option (list N * list N) :=
  match s with
  | c :: r =>
      if (c =? 46)%N then
        match span is_digit r with
        | ([], _) => None
        | (fd, r') => Some (fd, r')
        end
      else Some ([], s)
  | [] => Some ([], [])
  end.

Definition exp_sign (s : list N) : bool * list N :=
  match s with
  | c :: r => if (c =? 45)%N then (true, r) else if (c =? 43)%N then (false, r) else (false, s)
  | [] => (false, s)
  end.

Definition exp_part (s : list N) : option Z :=
  match s with
  | [] => Some 0%Z
  | c :: r =>
      if ((c =? 101) || (c =? 69))%N then
        let (neg, r1) := exp_sign r in
        match span is_digit r1 with
        | ((_ :: _) as ed, []) => Some (cond_Zopp neg (digits_value ed))
        | _ => None
        end
      else None
  end.

(** The JSON number grammar: an optional minus, [0] or digits that do
    not start with [0], an optional fraction, an optional exponent; and the
    Number value of the literal. *)
Definition parse_number_token (tok : list N) : option float :=
  let (neg, s1) := sign_of tok in
  match int_part s1 with
  | None => None
  | Some (ds, s2) =>
      match frac_part s2 with
      | None => None
      | Some (fs, s3) =>
          match exp_part s3 with
          | None => None
          | Some e =>
              Some (number_of_decimal neg (digits_value (ds ++ fs))
                      (e - Z.of_nat (length fs)))
          end
      end
  end.

Definition literal (rest_of_word : string) (v : jvalue) (s : list N) : option (jvalue * list N) :=
  match strip_prefix (units rest_of_word) s with
  | Some r => Some (v, r)
  | None => None
  end.

(** A value that is no array and no object, from its first character [c]
    and the text [r] after it. *)
Definition parse_atom (c : N) (r : list N) : option (jvalue * list N) :=
  if (c =? 110)%N then literal "ull" JNull r
  else if (c =? 116)%N then literal "rue" (JBool true) r
  else if (c =? 102)%N then literal "alse" (JBool false) r
  else if (c =? 34)%N then
    match parse_string_body r with
    | Some (str, rest) => Some (JString str, rest)
    | None => None
    end
  else if is_number_char c then
    let (tok, rest) := span is_number_char (c :: r) in
    match parse_number_token tok with
    | Some n => Some (JNumber n, rest)
    | None => None
    end
  else None.

(** Recursive descent over value, elements and members; [fuel] bounds the
    number of nested calls. *)
Fixpoint parse_value (fuel : nat) (s : list N) {struct fuel} : option (jvalue * list N) :=
  match fuel with
  | O => None
  | S f =>
      match s with
      | [] => None
      | c :: r =>
          if (c =? 91)%N then
            match skip_ws r with
            | [] => None
            | c1 :: r1 =>
                if (c1 =? 93)%N then Some (JArray Array_prototype [], r1)
                else
                  match parse_elements f (c1 :: r1) with
                  | Some (items, rest) => Some (JArray Array_prototype items, rest)
                  | None => None
                  end
            end
          else if (c =? 123)%N then
            match skip_ws r with
            | [] => None
            | c1 :: r1 =>
                if (c1 =? 125)%N then Some (JObject Object_prototype [], r1)
                else
                  match parse_members f (c1 :: r1) with
                  | Some (members, rest) =>
                      Some (JObject Object_prototype (build_object members), rest)
                  | None => None
                  end
            end
          else parse_atom c r
      end
  end
with parse_elements (fuel : nat) (s : list N) {struct fuel} : option (list jvalue * list N) :=
  match fuel with
  | O => None
  | S f =>
      match parse_value f s with
      | None => None
      | Some (v, r) =>
          match skip_ws r with
          | [] => None
          | c :: r1 =>
              if (c =? 44)%N then cons_to v (parse_elements f (skip_ws r1))
              else if (c =? 93)%N then Some ([v], r1)
              else None
          end
      end
  end
with parse_members (fuel : nat) (s : list N) {struct fuel}
     : option (list (list N * jvalue) * list N) :=
  match fuel with
  | O => None
  | S f =>
      match s with
      | [] => None
      | q :: r =>
          if (q =? 34)%N then
            match parse_string_body r with
            | None => None
            | Some (k, r1) =>
                match skip_ws r1 with
                | [] => None
                | c :: r2 =>
                    if (c =? 58)%N then
                      match parse_value f (skip_ws r2) with
                      | None => None
                      | Some (v, r3) =>
                          match skip_ws r3 with
                          | [] => None
                          | c' :: r4 =>
                              if (c' =? 44)%N
                              then cons_to (k, v) (parse_members f (skip_ws r4))
                              else if (c' =? 125)%N then Some ([(k, v)], r4)
                              else None
                          end
                      end
                    else None
                end
            end
          else None
      end
  end.

(** [JSON.parse(text)] without reviver: one value between optional white
    space, or a [SyntaxError].  Every call of the descent consumes input,
    and at most two of them start at the same position, so twice the
    length of the text is fuel enough ([parse_fuel_adequate] below). *)
Definition parse (text : list N) : completion jvalue :=
  match parse_value (2 * length text + 1) (skip_ws text) with
  | Some (v, r) =>
      match skip_ws r with
      | [] => Returns v
      | _ :: _ => Throws SyntaxError
      end
  | None => Throws SyntaxError
  end.

End JSON.

(** ** [getJSON] and [fromJSON] *)

Definition getJSON (obj : JsObject.jvalue) : JsNumber.text :=
  JSON.stringify obj.

Definition fromJSON (proto : JsObject.proto) (json : JsNumber.text)
  : JsObject.completion JsObject.jvalue :=
  match JSON.parse json with
  | JsObject.Returns v => JsObject.setPrototypeOf v proto
  | JsObject.Throws e => JsObject.Throws e
  end.

(** ** Vocabulary of the JSON claims *)

Module JsonSpec.
Import JsNumber JsObject JSON.
#[local] Open Scope list_scope.

(** [v] with every prototype set back to the default: the structure of
    [v]. *)
Fixpoint plain (v : jvalue) : jvalue :=
  match v with
  | JArray _ items => JArray Array_prototype (map plain items)
  | JObject _ props =>
      JObject Object_prototype (map (fun kv => (fst kv, plain (snd kv))) props)
  | _ => v
  end.

(** A string of 16-bit code units. *)
Definition valid_string (s : list N) : Prop :=
  Forall (fun u => (u < 65536)%N) s.

(** A finite number whose [Number::toString] text is a JSON number that
    reads back as the same number.  ECMAScript has this for every finite
    number but [-0]; here it is a condition that can be evaluated on each
    number. *)
Definition number_ok (n : float) : Prop :=
  is_finite n = true /\
  forallb JSON.is_number_char (Number_toString n) = true /\
  JSON.parse_number_token (Number_toString n) = Some n.

(** The properties are distinct and listed as the runtime keeps them:
    redefining them one by one gives the same list. *)
Definition own_property_order (props : list (list N * jvalue)) : Prop :=
  build_object props = props.

(** The values the round trip is stated for: [null], booleans, numbers
    that read back as themselves ([number_ok]: finite, and not [-0]),
    strings of 16-bit code units, arrays of such values, and objects of
    such values whose properties are listed in own-property order. *)
Inductive serializable : jvalue -> Prop :=
| ser_null : serializable JNull
| ser_bool b : serializable (JBool b)
| ser_number n : number_ok n -> serializable (JNumber n)
| ser_string s : valid_string s -> serializable (JString s)
| ser_array p items :
    Forall serializable items -> serializable (JArray p items)
| ser_object p props :
    Forall (fun kv => valid_string (fst kv) /\ serializable (snd kv)) props ->
    own_property_order props ->
    serializable (JObject p props).

(** Fuel that is enough to read [v] back. *)
Fixpoint size (v : jvalue) : nat :=
  match v with
  | JArray _ items => S (fold_right (fun x n => S (size x + n)) 0 items)
  | JObject _ props => S (fold_right (fun kv n => S (size (snd kv) + n)) 0 props)
  | _ => 1
  end.

(** Induction over values that reaches the elements and the property
    values. *)
Section ValueInduction.
Variable P : jvalue -> Prop.
Hypothesis Hnull : P JNull.
Hypothesis Hbool : forall b, P (JBool b).
Hypothesis Hnumber : forall n, P (JNumber n).
Hypothesis Hstring : forall s, P (JString s).
Hypothesis Harray : forall p items, Forall P items -> P (JArray p items).
Hypothesis Hobject :
  forall p props, Forall (fun kv => P (snd kv)) props -> P (JObject p props).

Fixpoint value_induction (v : jvalue) : P v :=
  match v with
  | JNull => Hnull
  | JBool b => Hbool b
  | JNumber n => Hnumber n
  | JString s => Hstring s
  | JArray p items =>
      Harray p items
        ((fix all (l : list jvalue) : Forall P l :=
            match l with
            | [] => Forall_nil P
            | x :: r => Forall_cons x (value_induction x) (all r)
            end) items)
  | JObject p props =>
      Hobject p props
        ((fix all (l : list (list N * jvalue)) : Forall (fun kv => P (snd kv)) l :=
            match l with
            | [] => Forall_nil _
            | kv :: r => Forall_cons kv (value_induction (snd kv)) (all r)
            end) props)
  end.
End ValueInduction.

(** What may follow a serialized value: no character that continues a
    number. *)
Definition boundary (rest : list N) : Prop :=
  match rest with
  | [] => True
  | c :: _ => is_number_char c = false
  end.

(** The share of the elements, and of the property values, in [size]. *)
Definition list_size (items : list jvalue) : nat :=
  fold_right (fun x n => S (size x + n)) 0%nat items.

Definition props_size (props : list (list N * jvalue)) : nat :=
  fold_right (fun kv n => S (size (snd kv) + n)) 0%nat props.

Definition plain_props (props : list (list N * jvalue)) :=
  map (fun kv => (fst kv, plain (snd kv))) props.

(** What a serialized value starts with: no white space, no closing
    bracket. *)
Definition opens_value (c : N) : Prop :=
  is_ws c = false /\ (c =? 93)%N = false /\ (c =? 125)%N = false.

(** The statement carried through the induction on values. *)
Definition parses_back (v : jvalue) : Prop :=
  serializable v ->
  forall (rest : list N) (fuel : nat),
    (size v <= fuel)%nat ->
    boundary rest ->
    parse_value fuel (stringify v ++ rest) = Some (plain v, rest).

(** [g] applied to every property value. *)
Definition map_values (g : jvalue -> jvalue) (props : list (list N * jvalue)) :=
  map (fun kv => (fst kv, g (snd kv))) props.

(** The prototype of a value that has one. *)
Definition prototype (v : jvalue) : option proto :=
  match v with
  | JArray p _ => Some p
  | JObject p _ => Some p
  | _ => None
  end.

Definition is_object (v : jvalue) : bool :=
  match v with
  | JArray _ _ => true
  | JObject _ _ => true
  | _ => false
  end.

(** Structural equality: the same data, whatever the prototypes. *)
Definition same_structure (a b : jvalue) : Prop :=
  plain a = plain b.

(** The text [json] is one JSON value [v] between optional white space:
    the descent accepts it, given calls enough. *)
Definition denotes (json : text) (v : jvalue) : Prop :=
  exists fuel rest,
    parse_value fuel (skip_ws json) = Some (v, rest) /\ skip_ws rest = [].

Definition well_formed (json : text) : Prop :=
  exists v, denotes json v.

(** A result of the descent with [t] put back behind the rest of the
    input. *)
Definition with_rest {A : Type} (t : list N) (o : option (A * list N))
  : option (A * list N) :=
  match o with
  | Some (a, r) => Some (a, r ++ t)
  | None => None
  end.

(** A code unit that is no control character. *)
Definition printable (c : N) : Prop := (32 <= c)%N.

(** The text of an object written member by member, each member given by
    its key and by the text of its value: [{"k1":t1,"k2":t2}].
    [members_text] is what follows the first member. *)
Fixpoint members_text (members : list (list N * text)) : text :=
  match members with
  | [] => [125%N]
  | (k, t) :: rest => 44%N :: quote k ++ 58%N :: t ++ members_text rest
  end.

Definition object_text (members : list (list N * text)) : text :=
  123%N :: match members with
           | [] => [125%N]
           | (k, t) :: rest => quote k ++ 58%N :: t ++ members_text rest
           end.

(** Structural equality of the decoded forms of two numbers. *)
Definition sf_same (a b : spec_float) : bool :=
  match a, b with
  | S754_zero s, S754_zero s' => Bool.eqb s s'
  | S754_infinity s, S754_infinity s' => Bool.eqb s s'
  | S754_nan, S754_nan => true
  | S754_finite s m e, S754_finite s' m' e' =>
      Bool.eqb s s' && (m =? m')%positive && (e =? e')%Z
  | _, _ => false
  end.

(** [number_ok] as a check that can be run. *)
Definition reads_back (n : float) : bool :=
  is_finite n
  && forallb is_number_char (Number_toString n)
  && match parse_number_token (Number_toString n) with
     | Some n' => sf_same (Prim2SF n') (Prim2SF n)
     | None => false
     end.

End JsonSpec.

(** ** [cssSelectorBuilder] *)

Module cssSelectorBuilder.
Import Js.

(** The mutable fields of the object literal. *)
Record builder := mkBuilder {
  arr : list value;
  comb : list string;
  isCombo : bool;
  elCount : nat;
  idCount : nat;
  psCount : nat
}.

(** The object as the literal creates it. *)
Definition initial : builder :=
  {| arr := []; comb := []; isCombo := false;
     elCount := 0; idCount := 0; psCount := 0 |}.

Definition errDoubleElem : string :=
  "Element, id and pseudo-element should not occur more then one time inside the selector".

Definition errWrongElemOrder : string :=
  "Selector parts should be arranged in the following order: element, id, class, attribute, pseudo-class, pseudo-element".

(** How a method call ends: it returns a result, or it throws; either way
    the shared object is left in some state. *)
Inductive outcome (A : Type) :=
| Normal (result : A) (this : builder)
| Throw (e : exn) (this : builder).
Arguments Normal {A} result this.
Arguments Throw {A} e this.

Definition state_after {A} (o : outcome A) : builder :=
  match o with
  | Normal _ this => this
  | Throw _ this => this
  end.

(** Sequencing of two method calls on the shared object. *)
Definition bind {A B} (o : outcome A) (k : A -> builder -> outcome B) : outcome B :=
  match o with
  | Normal a this => k a this
  | Throw e this => Throw e this
  end.

(** Field assignments. *)
Definition set_arr (a : list value) (this : builder) : builder :=
  {| arr := a; comb := comb this; isCombo := isCombo this;
     elCount := elCount this; idCount := idCount this; psCount := psCount this |}.

Definition set_comb (c : list string) (this : builder) : builder :=
  {| arr := arr this; comb := c; isCombo := isCombo this;
     elCount := elCount this; idCount := idCount this; psCount := psCount this |}.

Definition set_isCombo (b : bool) (this : builder) : builder :=
  {| arr := arr this; comb := comb this; isCombo := b;
     elCount := elCount this; idCount := idCount this; psCount := psCount this |}.

Definition set_elCount (n : nat) (this : builder) : builder :=
  {| arr := arr this; comb := comb this; isCombo := isCombo this;
     elCount := n; idCount := idCount this; psCount := psCount this |}.

Definition set_idCount (n : nat) (this : builder) : builder :=
  {| arr := arr this; comb := comb this; isCombo := isCombo this;
     elCount := elCount this; idCount := n; psCount := psCount this |}.

Definition set_psCount (n : nat) (this : builder) : builder :=
  {| arr := arr this; comb := comb this; isCombo := isCombo this;
     elCount := elCount this; idCount := idCount this; psCount := n |}.

(** [this.arr.push(v)]. *)
Definition push (v : value) (this : builder) : builder :=
  set_arr (arr this ++ [v]) this.

Definition counterReset (this : builder) : builder :=
  set_psCount 0 (set_idCount 0 (set_elCount 0 this)).

Definition arrsReset (this : builder) : builder :=
  set_arr [] (set_comb [] this).

Definition errorHandler {A} (msg : string) (this : builder) : outcome A :=
  Throw (Error msg) (arrsReset (counterReset this)).

Definition element (value : string) (this : builder) : outcome unit :=
  let lastEl := last_slot (arr this) in
  if truthy lastEl && negb (match_first [".";"#";":";"[";" "]%char lastEl)
  then errorHandler errDoubleElem this
  else if truthy lastEl && (elCount this =? 0)%nat
          && match_first ["#";"[";":"]%char lastEl
  then errorHandler errWrongElemOrder this
  else
    let this1 :=
      if truthy (last_slot (arr this))
      then counterReset (set_isCombo true (push (str value) (push null this)))
      else push (str value) this in
    Normal tt (set_elCount (elCount this1 + 1) this1).

Definition id (value : string) (this : builder) : outcome unit :=
  if negb (idCount this =? 0)%nat then errorHandler errDoubleElem this
  else
    let lastEl := last_slot (arr this) in
    if truthy lastEl && match_first [".";"[";":"]%char lastEl
    then errorHandler errWrongElemOrder this
    else
      let this1 := push (str ("#" ++ value)) this in
      Normal tt (set_idCount (idCount this1 + 1) this1).

Definition class (value : string) (this : builder) : outcome unit :=
  let lastEl := last_slot (arr this) in
  if truthy lastEl && match_first ["[";":"]%char lastEl
  then errorHandler errWrongElemOrder this
  else Normal tt (push (str ("." ++ value)) this).

Definition attr (value : string) (this : builder) : outcome unit :=
  let lastEl := last_slot (arr this) in
  if truthy lastEl && match_first [":"]%char lastEl
  then errorHandler errWrongElemOrder this
  else Normal tt (push (str ("[" ++ value ++ "]")) this).

Definition pseudoClass (value : string) (this : builder) : outcome unit :=
  let lastEl := last_slot (arr this) in
  if truthy lastEl && match_colon_colon lastEl
  then errorHandler errWrongElemOrder this
  else Normal tt (push (str (":" ++ value)) this).

Definition pseudoElement (value : string) (this : builder) : outcome unit :=
  if negb (psCount this =? 0)%nat then errorHandler errDoubleElem this
  else
    let this1 := push (str ("::" ++ value)) this in
    Normal tt (set_psCount (psCount this1 + 1) this1).

(** [combine(selector1, combinator)]: the method declares two parameters;
    a third argument of a call is dropped by the runtime.  The two selector
    arguments are kept in the embedding, at arbitrary types, to show that
    nothing is done with them. *)
Definition combine {S1 S2 : Type} (selector1 : S1) (combinator : string)
           (selector2 : S2) (this : builder) : outcome unit :=
  Normal tt (set_comb (comb this ++ [" " ++ combinator ++ " "]) this).

Definition stringify (this : builder) : outcome string :=
  let filled :=
    if isCombo this then
      if (length (comb this) =? length (filter is_null (arr this)))%nat then
        let this1 := set_comb (rev (comb this)) this in
        let this2 :=
          fold_left
            (fun t el => set_arr (assign_at_indexOf_null (arr t) (str el)) t)
            (comb this1) this1 in
        inr (set_isCombo false this2)
      else inl (Error "")
    else inr this in
  match filled with
  | inl e => Throw e this
  | inr this1 =>
      let res := join (arr this1) in
      Normal res (counterReset (set_arr [] (set_comb [] this1)))
  end.

(** *** Chains of calls *)

(** One fragment-adding call with its argument. *)
Inductive call :=
| AddElement (value : string)
| AddId (value : string)
| AddClass (value : string)
| AddAttr (value : string)
| AddPseudoClass (value : string)
| AddPseudoElement (value : string).

Definition perform (c : call) (this : builder) : outcome unit :=
  match c with
  | AddElement v => element v this
  | AddId v => id v this
  | AddClass v => class v this
  | AddAttr v => attr v this
  | AddPseudoClass v => pseudoClass v this
  | AddPseudoElement v => pseudoElement v this
  end.

(** [builder.c1(..).c2(..)...]: the calls run left to right on the shared
    object and the first throw ends the chain. *)
Fixpoint chain (cs : list call) (this : builder) : outcome unit :=
  match cs with
  | [] => Normal tt this
  | c :: rest => bind (perform c this) (fun _ => chain rest)
  end.

(** *** The error kinds of the specification

    The code throws plain [Error]s; the kinds are told apart by message. *)

Definition DuplicateViolation : exn := Error errDoubleElem.
Definition OrderViolation : exn := Error errWrongElemOrder.
Definition CompositionError : exn := Error "".

(** The state [errorHandler] leaves behind. *)
Definition reset (this : builder) : builder :=
  arrsReset (counterReset this).

(** Fragment sequence, pending combinators and counters cleared; the
    composite flag is not part of it. *)
Definition clean (this : builder) : Prop :=
  arr this = [] /\ comb this = [] /\
  elCount this = 0 /\ idCount this = 0 /\ psCount this = 0.

(** *** Vocabulary of the claims *)

(** A fragment formatted with its category prefix. *)
Definition formatted (c : call) : string :=
  match c with
  | AddElement v => v
  | AddId v => "#" ++ v
  | AddClass v => "." ++ v
  | AddAttr v => "[" ++ v ++ "]"
  | AddPseudoClass v => ":" ++ v
  | AddPseudoElement v => "::" ++ v
  end.

(** The concatenation of the formatted fragments, in call order. *)
Definition rendered (cs : list call) : string :=
  String.concat "" (map formatted cs).

(** Position of a category in the fixed order element, id, class,
    attribute, pseudo-class, pseudo-element. *)
Definition category (c : call) : nat :=
  match c with
  | AddElement _ => 1
  | AddId _ => 2
  | AddClass _ => 3
  | AddAttr _ => 4
  | AddPseudoClass _ => 5
  | AddPseudoElement _ => 6
  end.

Definition repeatable (c : call) : bool :=
  match c with
  | AddClass _ | AddAttr _ | AddPseudoClass _ => true
  | _ => false
  end.

Definition is_element (c : call) : bool :=
  match c with
  | AddElement _ => true
  | _ => false
  end.

(** [c] may come next when the latest category so far is [latest]
    ([0]: nothing yet): a later category, or the same repeatable one. *)
Definition may_follow (latest : nat) (c : call) : bool :=
  (latest <? category c)%nat || ((latest =? category c)%nat && repeatable c).

Fixpoint valid_ordering_from (latest : nat) (cs : list call) : bool :=
  match cs with
  | [] => true
  | c :: rest => may_follow latest c && valid_ordering_from (category c) rest
  end.

(** The same order as a check that can be run. *)
Definition valid_ordering (cs : list call) : bool :=
  valid_ordering_from 0 cs.

(** A chain in a valid category ordering: at most one element first, then
    at most one id, then any number of class, of attr and of pseudoClass
    calls, then at most one pseudoElement. *)
Definition in_category_order (cs : list call) : Prop :=
  exists e i cl attrs pc pe,
    cs = (e ++ i ++ cl ++ attrs ++ pc ++ pe)%list /\
    length e <= 1 /\ length i <= 1 /\ length pe <= 1 /\
    Forall (fun c => category c = 1) e /\
    Forall (fun c => category c = 2) i /\
    Forall (fun c => category c = 3) cl /\
    Forall (fun c => category c = 4) attrs /\
    Forall (fun c => category c = 5) pc /\
    Forall (fun c => category c = 6) pe.

(** The builder tells categories apart by the first characters of the last
    fragment.  An element value carries no prefix of its own and a
    pseudo-class value follows a single colon, so these two can be taken
    for a later category; [plain_value] excludes that. *)
Definition plain_value (c : call) : bool :=
  match c with
  | AddElement v => negb (match_first [".";"[";":"]%char (str v))
  | AddPseudoClass v => negb (match_first [":"]%char (str v))
  | _ => true
  end.

(** *** Combination expressions

    [builder.combine(a, c, b)] where [a] and [b] are themselves builder
    expressions: the runtime evaluates [a], then [b], on the one shared
    object, and then calls [combine]. *)
Inductive selector :=
| Simple (cs : list call)
| Combine (a : selector) (combinator : string) (b : selector).

Fixpoint eval (e : selector) (this : builder) : outcome unit :=
  match e with
  | Simple cs => chain cs this
  | Combine a c b =>
      bind (eval a this) (fun _ this_a =>
      bind (eval b this_a) (fun _ this_b =>
      combine this_a c this_b this_b))
  end.

(** The string the claims expect of an expression: ["<a> c <b>"]. *)
Fixpoint expected (e : selector) : string :=
  match e with
  | Simple cs => rendered cs
  | Combine a c b => expected a ++ " " ++ c ++ " " ++ expected b
  end.

(** [e.stringify()] *)
Definition stringified (e : selector) (this : builder) : outcome string :=
  bind (eval e this) (fun _ => stringify).

(** One left-to-right pass that puts the tokens into the [null] slots:
    what the [forEach] of [stringify] amounts to. *)
Fixpoint fill (slots : list value) (tokens : list string) : list value :=
  match slots with
  | [] => []
  | null :: rest =>
      match tokens with
      | t :: tokens' => str t :: fill rest tokens'
      | [] => null :: rest
      end
  | v :: rest => v :: fill rest tokens
  end.

(** *** Combinations that the placeholder scheme covers *)

(** A regular compound: it opens with an element call and goes on in
    category order (at most one id, then classes, attributes and
    pseudo-classes, then at most one pseudo-element), and its values are
    plain ([plain_value]): the element value does not start with one of
    [. [ :] and no pseudo-class value starts with [:]. *)
Definition element_led (cs : list call) : bool :=
  match cs with
  | AddElement _ :: rest => valid_ordering_from 1 rest && forallb plain_value cs
  | _ => false
  end.

(** Simple selectors combined to the right, [combine(X1, c1, combine(X2, c2,
    ...))]: every compound is regular ([element_led]) and every left
    operand has at least one fragment after its element. *)
Fixpoint right_nested (e : selector) : bool :=
  match e with
  | Simple cs => element_led cs
  | Combine (Simple cs) _ b =>
      element_led cs && (2 <=? length cs)%nat && right_nested b
  | Combine _ _ _ => false
  end.

(** The slots a right-nested expression leaves in [arr]. *)
Fixpoint slots (e : selector) : list value :=
  match e with
  | Simple cs => map str (map formatted cs)
  | Combine a _ b => slots a ++ null :: slots b
  end.

(** The tokens it leaves in [comb], in the order they are recorded. *)
Fixpoint tokens (e : selector) : list string :=
  match e with
  | Simple _ => []
  | Combine a c b => tokens a ++ tokens b ++ [" " ++ c ++ " "]
  end.

(** *** Combinations of any shape, and the states within reach *)

(** A combination expression that the placeholder scheme can run: every
    compound is regular ([element_led]), and every compound that is
    followed by another one has at least one fragment after its element.
    [more] says that a compound follows [e]. *)
Fixpoint combinable (more : bool) (e : selector) : bool :=
  match e with
  | Simple cs => element_led cs && (negb more || (2 <=? length cs)%nat)
  | Combine a _ b => combinable true a && combinable more b
  end.

(** The states the object can get into through its methods, whether they
    return or throw. *)
Inductive reachable : builder -> Prop :=
| reach_initial : reachable initial
| reach_call (c : call) (this : builder) :
    reachable this -> reachable (state_after (perform c this))
| reach_combine (combinator : string) (this : builder) :
    reachable this -> reachable (state_after (combine tt combinator tt this))
| reach_stringify (this : builder) :
    reachable this -> reachable (state_after (stringify this)).

End cssSelectorBuilder.

Import Js cssSelectorBuilder.

(** ** Invariant of a chain that respects the category order *)

(** What the builder's fields say after calls whose latest category is
    [latest]: the counters and the prefix of the last fragment never point
    to a later category than [latest]. *)
Definition ordered_upto (latest : nat) (this : builder) : Prop :=
  (latest = 0 -> arr this = []) /\
  (idCount this <> 0 -> 2 <= latest) /\
  (psCount this <> 0 -> 6 <= latest) /\
  (match_first [".";"[";":"]%char (last_slot (arr this)) = true -> 3 <= latest) /\
  (match_first ["[";":"]%char (last_slot (arr this)) = true -> 4 <= latest) /\
  (match_first [":"]%char (last_slot (arr this)) = true -> 5 <= latest) /\
  (match_colon_colon (last_slot (arr this)) = true -> 6 <= latest).

(** The category reached after the calls [cs], starting from [latest]. *)
Definition latest_after (latest : nat) (cs : list call) : nat :=
  fold_left (fun _ c => category c) cs latest.

(** The error an out-of-order call gets: [id] checks for a duplicate before
    it looks at the last fragment. *)
Definition order_error (c : call) (this : builder) : exn :=
  match c with
  | AddId _ => if (idCount this =? 0)%nat then OrderViolation else DuplicateViolation
  | _ => OrderViolation
  end.

(** A state in which an [element] call is accepted: nothing added yet, or a
    compound that has its element and ends in a prefixed fragment. *)
Definition may_open (this : builder) : Prop :=
  (arr this = [] /\ idCount this = 0 /\ psCount this = 0) \/
  (truthy (last_slot (arr this)) = true /\
   match_first [".";"#";":";"[";" "]%char (last_slot (arr this)) = true /\
   elCount this <> 0).

(** The placeholder [element] pushes when the sequence is not empty. *)
Definition separator (this : builder) : list value :=
  match arr this with
  | [] => []
  | _ => [null]
  end.

(** * Properties *)

(** ** Runtime helpers *)

Lemma last_slot_push (l : list value) (v : value) :
  last_slot (l ++ [v]) = v.
Proof. unfold last_slot. apply last_last. Qed.

Lemma match_first_mono (small big : list ascii) (v : value) :
  incl small big -> match_first small v = true -> match_first big v = true.
Proof.
  destruct v as [| |[|c s]]; simpl; try discriminate.
  intros Hincl H. apply existsb_exists in H. destruct H as [x [Hin Hx]].
  apply existsb_exists. exists x. split; [apply Hincl; exact Hin | exact Hx].
Qed.

Lemma match_colon_colon_first (v : value) :
  match_colon_colon v = true -> match_first [":"]%char v = true.
Proof.
  destruct v as [| |[|c [|c' s]]]; simpl; try discriminate.
  intros H. apply andb_true_iff in H. destruct H as [-> _]. reflexivity.
Qed.

Lemma join_strs (l : list string) :
  join (map str l) = String.concat "" l.
Proof. unfold join. rewrite map_map. simpl. rewrite map_id. reflexivity. Qed.

Lemma filter_is_null_strs (l : list string) :
  filter is_null (map str l) = [].
Proof. induction l; simpl; auto. Qed.

(** ** Chains in category order *)

Lemma may_follow_bounds (latest : nat) (c : call) :
  may_follow latest c = true ->
  latest <= category c /\ (repeatable c = false -> latest < category c).
Proof.
  unfold may_follow. intros H. apply orb_true_iff in H.
  destruct H as [H|H].
  - apply Nat.ltb_lt in H. split; [lia | intros _; exact H].
  - apply andb_true_iff in H. destruct H as [H1 H2]. apply Nat.eqb_eq in H1.
    split; [lia | intros H3; congruence].
Qed.

Ltac simpl_fields :=
  cbn [arr comb isCombo elCount idCount psCount
       set_arr set_comb set_isCombo set_elCount set_idCount set_psCount
       push counterReset arrsReset reset state_after bind] in *.

Ltac falsify_guard :=
  match goal with
  | |- context [truthy ?v && ?g] =>
      let E := fresh "E" in
      destruct g eqn:E;
      [exfalso | rewrite andb_false_r]
  end.

Lemma incl_2_3 (a b c : ascii) : incl [b; c] [a; b; c].
Proof. intros x [<-|[<-|[]]]; simpl; auto. Qed.

Lemma incl_1_3 (a b c : ascii) : incl [c] [a; b; c].
Proof. intros x [<-|[]]; simpl; auto. Qed.

Lemma formatted_prefix_facts (c : call) :
  plain_value c = true ->
  (match_first [".";"[";":"]%char (str (formatted c)) = true -> 3 <= category c) /\
  (match_first ["[";":"]%char (str (formatted c)) = true -> 4 <= category c) /\
  (match_first [":"]%char (str (formatted c)) = true -> 5 <= category c) /\
  (match_colon_colon (str (formatted c)) = true -> 6 <= category c).
Proof.
  destruct c as [v|v|v|v|v|v]; intros Hplain;
    try (simpl; repeat split; intros;
         (lia || congruence || (destruct v; simpl in *; congruence))).
  - (* element *)
    apply negb_true_iff in Hplain. cbn [formatted category].
    assert (H2 : match_first ["[";":"]%char (str v) = false).
    { destruct (match_first ["[";":"]%char (str v)) eqn:E; [|reflexivity].
      apply (match_first_mono _ _ _ (incl_2_3 "." "[" ":")) in E. congruence. }
    assert (H1 : match_first [":"]%char (str v) = false).
    { destruct (match_first [":"]%char (str v)) eqn:E; [|reflexivity].
      apply (match_first_mono _ _ _ (incl_1_3 "." "[" ":")) in E. congruence. }
    assert (H0 : match_colon_colon (str v) = false).
    { destruct (match_colon_colon (str v)) eqn:E; [|reflexivity].
      apply match_colon_colon_first in E. congruence. }
    repeat split; intros; congruence.
  - (* pseudoClass *)
    apply negb_true_iff in Hplain. cbn [formatted category].
    repeat split; intros; try lia.
    exfalso. destruct v as [|c s]; simpl in *; [discriminate|].
    rewrite orb_false_r in Hplain. congruence.
Qed.

Ltac close_counter :=
  let E := fresh "E" in
  intros E;
  repeat match goal with
         | H : ?P -> _ <= _ |- _ =>
             match type of E with P => specialize (H E) end
         end;
  lia.

Lemma perform_in_order (latest : nat) (c : call) (this : builder) :
  ordered_upto latest this ->
  may_follow latest c = true ->
  plain_value c = true ->
  exists this',
    perform c this = Normal tt this' /\
    arr this' = (arr this ++ [str (formatted c)])%list /\
    comb this' = comb this /\
    isCombo this' = isCombo this /\
    ordered_upto (category c) this'.
Proof.
  intros (H0 & Hid & Hps & H3 & H4 & H5 & H6) Hf Hplain.
  pose proof (formatted_prefix_facts c Hplain) as (F3 & F4 & F5 & F6).
  apply may_follow_bounds in Hf. destruct Hf as [Hle Hlt].
  assert (Hinv : forall this',
             arr this' = (arr this ++ [str (formatted c)])%list ->
             (idCount this' <> 0 -> 2 <= category c) ->
             (psCount this' <> 0 -> 6 <= category c) ->
             ordered_upto (category c) this').
  { intros this' Ha Hi Hp. unfold ordered_upto. rewrite Ha, last_slot_push.
    repeat split; auto.
    intros E. destruct c; discriminate. }
    destruct c as [v|v|v|v|v|v]; cbn [category repeatable] in *; unfold perform.
  - (* element: only as the first call *)
    assert (latest = 0) as -> by (specialize (Hlt eq_refl); lia).
    specialize (H0 eq_refl). unfold element.
    replace (last_slot (arr this)) with undefined by (rewrite H0; reflexivity).
    cbn [truthy andb].
    eexists. split; [reflexivity|]. simpl_fields.
    do 3 (split; [reflexivity|]). apply Hinv; simpl_fields; auto; close_counter.
  - (* id *)
    specialize (Hlt eq_refl). unfold id.
    destruct (idCount this =? 0)%nat eqn:Eid;
      [apply Nat.eqb_eq in Eid | apply Nat.eqb_neq in Eid; specialize (Hid Eid); lia].
    cbn [negb]. falsify_guard; [specialize (H3 eq_refl); lia|].
    eexists. split; [reflexivity|]. simpl_fields.
    do 3 (split; [reflexivity|]). apply Hinv; simpl_fields; auto; close_counter.
  - (* class *)
    unfold class. falsify_guard; [specialize (H4 eq_refl); lia|].
    eexists. split; [reflexivity|]. simpl_fields.
    do 3 (split; [reflexivity|]). apply Hinv; simpl_fields; auto; close_counter.
  - (* attr *)
    unfold attr. falsify_guard; [specialize (H5 eq_refl); lia|].
    eexists. split; [reflexivity|]. simpl_fields.
    do 3 (split; [reflexivity|]). apply Hinv; simpl_fields; auto; close_counter.
  - (* pseudoClass *)
    unfold pseudoClass. falsify_guard; [specialize (H6 eq_refl); lia|].
    eexists. split; [reflexivity|]. simpl_fields.
    do 3 (split; [reflexivity|]). apply Hinv; simpl_fields; auto; close_counter.
  - (* pseudoElement *)
    specialize (Hlt eq_refl). unfold pseudoElement.
    destruct (psCount this =? 0)%nat eqn:Eps;
      [apply Nat.eqb_eq in Eps | apply Nat.eqb_neq in Eps; specialize (Hps Eps); lia].
    cbn [negb]. eexists. split; [reflexivity|]. simpl_fields.
    do 3 (split; [reflexivity|]). apply Hinv; simpl_fields; auto; close_counter.
Qed.

Lemma chain_in_order (cs : list call) :
  forall (latest : nat) (this : builder),
    ordered_upto latest this ->
    valid_ordering_from latest cs = true ->
    forallb plain_value cs = true ->
    exists this',
      chain cs this = Normal tt this' /\
      arr this' = (arr this ++ map str (map formatted cs))%list /\
      comb this' = comb this /\
      isCombo this' = isCombo this /\
      ordered_upto (latest_after latest cs) this'.
Proof.
  induction cs as [|c rest IH]; intros latest this Hinv Hvalid Hplain.
  - exists this. cbn [chain map latest_after fold_left].
    rewrite app_nil_r. auto.
  - cbn [valid_ordering_from forallb] in Hvalid, Hplain.
    apply andb_true_iff in Hvalid. destruct Hvalid as [Hc Hrest].
    apply andb_true_iff in Hplain. destruct Hplain as [Pc Prest].
    destruct (perform_in_order latest c this Hinv Hc Pc)
      as (this1 & Hrun & Harr & Hcomb & Hcombo & Hinv1).
    destruct (IH (category c) this1 Hinv1 Hrest Prest)
      as (this2 & Hrun2 & Harr2 & Hcomb2 & Hcombo2 & Hinv2).
    exists this2. cbn [chain]. rewrite Hrun. cbn [bind].
    split; [exact Hrun2|].
    split; [rewrite Harr2, Harr, <- app_assoc; reflexivity|].
    split; [congruence|]. split; [congruence|]. exact Hinv2.
Qed.

Lemma clean_ordered_upto (this : builder) :
  clean this -> ordered_upto 0 this.
Proof.
  intros (Ha & _ & _ & Hi & Hp). unfold ordered_upto. rewrite Ha, Hi, Hp.
  repeat split; intros; try congruence; discriminate.
Qed.

(** [stringify] on a sequence without placeholder and without pending
    combinator: the fragments are joined and the object is as new. *)
Lemma stringify_no_placeholder (this : builder) :
  filter is_null (arr this) = [] ->
  comb this = [] ->
  stringify this = Normal (join (arr this)) initial.
Proof.
  intros Hnull Hcomb. unfold stringify. rewrite Hnull, Hcomb.
  destruct (isCombo this) eqn:E; cbn; [reflexivity|].
  unfold counterReset, set_arr, set_comb, set_psCount, set_idCount,
    set_elCount; cbn. rewrite E. reflexivity.
Qed.

(** C1, counterexample: [element(':root').class('dark')] is in category
    order, and the [class] call throws, because the element's text starts
    with a colon. *)
Lemma valid_chain_colon_element_throws :
  in_category_order [AddElement ":root"; AddClass "dark"] /\
  stringified (Simple [AddElement ":root"; AddClass "dark"]) initial
    = Throw OrderViolation initial.
Proof.
  split; [|reflexivity].
  exists [AddElement ":root"], [], [AddClass "dark"], [], [], [].
  cbn [length]. repeat split; auto.
Qed.

Lemma run_of_one_category (k : nat) (seg : list call) :
  forall (rest : list call) (latest : nat),
    Forall (fun c => category c = k) seg ->
    (3 <= k <= 5 /\ latest <= k) \/ (length seg <= 1 /\ latest < k) ->
    exists latest',
      latest' <= k /\
      valid_ordering_from latest (seg ++ rest) = valid_ordering_from latest' rest.
Proof.
  induction seg as [|c seg IH]; intros rest latest Hk Hcase.
  - exists latest. split; [lia | reflexivity].
  - inversion Hk as [|? ? Hc Hseg]; subst.
    assert (Hfollow : may_follow latest c = true).
    { unfold may_follow. destruct Hcase as [[Hrange Hle]|[_ Hlt]].
      - destruct (Nat.eq_dec latest (category c)) as [E|E].
        + apply orb_true_iff. right. apply andb_true_iff.
          split; [apply Nat.eqb_eq; exact E|].
          destruct c; cbn in *; (reflexivity || lia).
        + replace (latest <? category c)%nat with true; [reflexivity|].
          symmetry. apply Nat.ltb_lt. lia.
      - replace (latest <? category c)%nat with true; [reflexivity|].
        symmetry. apply Nat.ltb_lt. exact Hlt. }
    cbn [app valid_ordering_from]. rewrite Hfollow. cbn [andb].
    destruct Hcase as [[Hrange Hle]|[Hlen Hlt]].
    + destruct (IH rest (category c) Hseg) as (l' & Hl' & E).
      * left. split; [exact Hrange | apply le_n].
      * exists l'. split; [exact Hl' | exact E].
    + destruct seg as [|d seg]; [|cbn in Hlen; lia].
      exists (category c). split; [apply le_n | reflexivity].
Qed.

(** Every chain in a valid category ordering passes the check. *)
Lemma category_order_is_valid (cs : list call) :
  in_category_order cs -> valid_ordering cs = true.
Proof.
  intros (e & i & cl & at_ & pc & pe & -> & He & Hi & Hpe
          & Fe & Fi & Fcl & Fat & Fpc & Fpe).
  unfold valid_ordering.
  destruct (run_of_one_category 1 e (i ++ cl ++ at_ ++ pc ++ pe) 0 Fe)
    as (l1 & Hl1 & ->); [right; lia|].
  destruct (run_of_one_category 2 i (cl ++ at_ ++ pc ++ pe) l1 Fi)
    as (l2 & Hl2 & ->); [right; lia|].
  destruct (run_of_one_category 3 cl (at_ ++ pc ++ pe) l2 Fcl)
    as (l3 & Hl3 & ->); [left; lia|].
  destruct (run_of_one_category 4 at_ (pc ++ pe) l3 Fat)
    as (l4 & Hl4 & ->); [left; lia|].
  destruct (run_of_one_category 5 pc pe l4 Fpc)
    as (l5 & Hl5 & ->); [left; lia|].
  destruct (run_of_one_category 6 pe [] l5 Fpe)
    as (l6 & Hl6 & E); [right; lia|].
  rewrite app_nil_r in E. rewrite E. reflexivity.
Qed.

(** C1 (amended): a chain in a valid category ordering (element?, id?,
    class*, attr*, pseudoClass*, pseudoElement?), whose element value does
    not start with one of [. [ :] and whose pseudo-class values do not start
    with [:], run on a builder with its sequences and counters cleared,
    returns from [stringify()] the concatenation of the prefixed fragments
    in call order and leaves the builder as new. *)
Theorem stringify_valid_chain (cs : list call) (this : builder) :
  in_category_order cs ->
  forallb plain_value cs = true ->
  clean this ->
  stringified (Simple cs) this = Normal (rendered cs) initial.
Proof.
  intros Horder Hplain Hclean.
  pose proof (category_order_is_valid cs Horder) as Hvalid.
  destruct (chain_in_order cs 0 this (clean_ordered_upto this Hclean) Hvalid Hplain)
    as (this1 & Hrun & Harr & Hcomb & _ & _).
  destruct Hclean as (Ha & Hc & _).
  unfold stringified. cbn [eval]. rewrite Hrun. cbn [bind].
  rewrite Ha in Harr. cbn [app] in Harr.
  rewrite stringify_no_placeholder.
  - rewrite Harr, join_strs. reflexivity.
  - rewrite Harr. apply filter_is_null_strs.
  - congruence.
Qed.

Lemma stringify_valid_chain_witness :
  stringified
    (Simple [AddElement "a"; AddAttr "href$=.png"; AddPseudoClass "focus"])
    initial
  = Normal "a[href$=.png]:focus" initial.
Proof.
  apply (stringify_valid_chain
           [AddElement "a"; AddAttr "href$=.png"; AddPseudoClass "focus"]
           initial).
  - exists [AddElement "a"], [], [], [AddAttr "href$=.png"],
      [AddPseudoClass "focus"], [].
    cbn [length]. repeat split; auto.
  - reflexivity.
  - repeat split.
Defined.

(** ** Errors and the shared state *)

(** An error of a fragment-adding call comes from [errorHandler]: it is one
    of the two violations, and sequences and counters are cleared.  The
    composite flag keeps its value. *)
Lemma perform_throw_resets (c : call) (this this' : builder) (e : exn) :
  perform c this = Throw e this' ->
  (e = DuplicateViolation \/ e = OrderViolation) /\
  this' = reset this /\ clean this' /\ isCombo this' = isCombo this.
Proof.
  destruct c as [v|v|v|v|v|v]; unfold perform, element, id, class, attr,
    pseudoClass, pseudoElement, errorHandler;
    repeat match goal with
           | |- context [if ?b then _ else _] => destruct b
           end;
    intros H; inversion H; subst;
    (split; [auto | split; [reflexivity | split; [repeat split | reflexivity]]]).
Qed.

(** The error of [stringify] is thrown before anything is written: the
    builder keeps its fragments, placeholders, counters and flag. *)
Lemma stringify_throw_keeps_state (this this' : builder) (e : exn) :
  stringify this = Throw e this' ->
  e = CompositionError /\ this' = this /\ isCombo this = true /\
  length (comb this) <> length (filter is_null (arr this)).
Proof.
  unfold stringify. destruct (isCombo this); [|discriminate].
  destruct (length (comb this) =? length (filter is_null (arr this)))%nat eqn:E;
    [discriminate|].
  apply Nat.eqb_neq in E. intros H. inversion H; subst. repeat split; auto.
Qed.

(** C5 (code defect): [element('div').class('a').element('p').stringify()]
    holds one placeholder and no combinator, so [stringify] throws; it
    throws without going through [errorHandler], and the builder keeps the
    four slots, the counter and the flag.  The next, unrelated chain
    [id('x').stringify()] is appended to those slots and throws again. *)
Theorem composition_error_keeps_state :
  let stuck :=
    {| arr := [str "div"; str ".a"; null; str "p"]; comb := [];
       isCombo := true; elCount := 1; idCount := 0; psCount := 0 |} in
  stringified (Simple [AddElement "div"; AddClass "a"; AddElement "p"]) initial
    = Throw CompositionError stuck /\
  ~ clean stuck /\
  stringified (Simple [AddId "x"]) stuck
    = Throw CompositionError
        {| arr := [str "div"; str ".a"; null; str "p"; str "#x"]; comb := [];
           isCombo := true; elCount := 1; idCount := 1; psCount := 0 |} /\
  stringified (Simple [AddId "x"]) initial = Normal "#x" initial.
Proof.
  cbv zeta. repeat split; try reflexivity.
  intros (H & _). discriminate.
Qed.

(** ** [combine] *)

(** C8: [combine] pushes the combinator between two spaces onto [comb] and
    touches nothing else; whatever is passed as the two selectors, the
    outcome is the same. *)
Theorem combine_only_records_token
    (S1 S2 S1' S2' : Type) (selector1 : S1) (selector2 : S2)
    (selector1' : S1') (selector2' : S2')
    (combinator : string) (this : builder) :
  let after := state_after (combine selector1 combinator selector2 this) in
  combine selector1 combinator selector2 this = Normal tt after /\
  comb after = (comb this ++ [(" " ++ combinator ++ " ")%string])%list /\
  arr after = arr this /\
  isCombo after = isCombo this /\
  elCount after = elCount this /\
  idCount after = idCount this /\
  psCount after = psCount this /\
  combine selector1' combinator selector2' this
    = combine selector1 combinator selector2 this.
Proof. cbv zeta. repeat split. Qed.

(** C2 (code defect): in [combine(element('div'), '+', element('p'))] the
    two arguments are evaluated on the shared builder one after the other,
    so [element('p')] finds ['div'] as the last fragment and throws the
    duplicate error; the claim expects ["div + p"]. *)
Theorem combine_two_elements_throws :
  let e := Combine (Simple [AddElement "div"]) "+" (Simple [AddElement "p"]) in
  expected e = "div + p" /\
  stringified e initial = Throw DuplicateViolation initial.
Proof. split; reflexivity. Qed.

(** C6 (code defect, the one of C2): with a lone element as the left
    operand, [combine(element('div'), '+', combine(element('table').id('data'),
    '~', element('tr')))] throws at [element('table')]; the claim expects
    ["div + table#data ~ tr"]. *)
Theorem nested_combine_lone_element_throws :
  let e :=
    Combine (Simple [AddElement "div"]) "+"
      (Combine (Simple [AddElement "table"; AddId "data"]) "~"
         (Simple [AddElement "tr"])) in
  expected e = "div + table#data ~ tr" /\
  stringified e initial = Throw DuplicateViolation initial.
Proof. split; reflexivity. Qed.

(** ** Duplicates and order *)

Lemma perform_last_slot (l : call) (this0 this1 : builder) :
  perform l this0 = Normal tt this1 ->
  last_slot (arr this1) = str (formatted l).
Proof.
  destruct l as [v|v|v|v|v|v]; unfold perform, element, id, class, attr,
    pseudoClass, pseudoElement, errorHandler;
    repeat match goal with
           | |- context [if ?b then _ else _] => destruct b
           end;
    intros H; inversion H; subst; simpl_fields;
    rewrite last_slot_push; reflexivity.
Qed.

Lemma out_of_order_after_last (l c : call) (this0 this1 : builder) :
  perform l this0 = Normal tt this1 ->
  category c < category l ->
  is_element c = false ->
  perform c this1 = Throw (order_error c this1) (reset this1).
Proof.
  intros Hl Hlt Hc. apply perform_last_slot in Hl.
  destruct c as [w|w|w|w|w|w]; try discriminate;
    destruct l as [v|v|v|v|v|v]; cbn [category] in Hlt; try lia;
    unfold perform, id, class, attr, pseudoClass, order_error;
    rewrite ?Hl; cbn [formatted];
    try (destruct (idCount this1 =? 0)%nat; cbn [negb]);
    try reflexivity;
    destruct v; reflexivity.
Qed.

Lemma chain_cons (c : call) (rest : list call) (this this2 : builder) :
  chain (c :: rest) this = Normal tt this2 ->
  exists this1, perform c this = Normal tt this1 /\ chain rest this1 = Normal tt this2.
Proof.
  cbn [chain]. destruct (perform c this) as [[] this1|e this1]; cbn [bind].
  - intros H. exists this1. auto.
  - discriminate.
Qed.

Lemma chain_app (cs1 cs2 : list call) :
  forall this this2,
    chain (cs1 ++ cs2) this = Normal tt this2 ->
    exists this1, chain cs1 this = Normal tt this1 /\ chain cs2 this1 = Normal tt this2.
Proof.
  induction cs1 as [|c cs1 IH]; intros this this2 H.
  - exists this. auto.
  - cbn [app] in H. apply chain_cons in H. destruct H as (t1 & Hc & Hrest).
    apply IH in Hrest. destruct Hrest as (t2 & H1 & H2).
    exists t2. cbn [chain]. rewrite Hc. auto.
Qed.

(** Within one compound the categories of the calls that went through never
    go down: the last call is of the latest category. *)
Lemma categories_never_decrease (post : list call) :
  forall (d : call) (this this1 : builder),
    chain (d :: post) this = Normal tt this1 ->
    existsb is_element post = false ->
    exists l this0,
      perform l this0 = Normal tt this1 /\ category d <= category l.
Proof.
  induction post as [|d' post IH]; intros d this this1 H Hfree.
  - apply chain_cons in H. destruct H as (t1 & Hd & Hnil).
    cbn [chain] in Hnil. inversion Hnil; subst. exists d, this. auto.
  - cbn [existsb] in Hfree. apply orb_false_iff in Hfree.
    destruct Hfree as [Hd' Hfree].
    apply chain_cons in H. destruct H as (t1 & Hd & Hrest).
    destruct (IH d' t1 this1 Hrest Hfree) as (l & t0 & Hl & Hle).
    exists l, t0. split; [exact Hl|].
    apply chain_cons in Hrest. destruct Hrest as (t2 & Hd2 & _).
    destruct (Nat.lt_ge_cases (category d') (category d)) as [Hlt|Hge]; [|lia].
    rewrite (out_of_order_after_last d d' this t1 Hd Hlt Hd') in Hd2.
    discriminate.
Qed.

(** C4, counterexample: [element('div').class('container').element('table')]
    adds an element after a class and nothing is thrown; the builder starts
    a second compound behind a placeholder. *)
Lemma element_after_class_returns :
  chain [AddElement "div"; AddClass "container"; AddElement "table"] initial
  = Normal tt
      {| arr := [str "div"; str ".container"; null; str "table"]; comb := [];
         isCombo := true; elCount := 1; idCount := 0; psCount := 0 |}.
Proof. reflexivity. Qed.

(** C4 (amended): after a chain of calls that went through, an id, class,
    attr or pseudoClass call whose category precedes that of a fragment [d]
    added since the last element call throws at once and the builder is
    reset; the error is the order error, except for an id call on a compound
    that already has an id, which gets the duplicate error.  An element call
    throws the order error when the compound has no element and the last
    fragment is an id, attr, pseudo-class or pseudo-element. *)
Theorem out_of_order_call_throws
    (this this1 : builder) (pre post : list call) (d c : call) :
  chain (pre ++ d :: post) this = Normal tt this1 ->
  existsb is_element post = false ->
  (is_element c = false -> category c < category d ->
   perform c this1 = Throw (order_error c this1) (reset this1)) /\
  (is_element c = true -> post = [] -> elCount this1 = 0 ->
   category d <> 1 -> category d <> 3 ->
   perform c this1 = Throw OrderViolation (reset this1)).
Proof.
  intros Hrun Hfree.
  apply chain_app in Hrun. destruct Hrun as (t0 & _ & Hrun).
  split.
  - intros Hc Hlt.
    destruct (categories_never_decrease post d t0 this1 Hrun Hfree)
      as (l & tl & Hl & Hle).
    apply (out_of_order_after_last l c tl this1 Hl); [lia | exact Hc].
  - intros Hc -> Hel Hd1 Hd3.
    apply chain_cons in Hrun. destruct Hrun as (t1 & Hd & Hnil).
    cbn [chain] in Hnil. inversion Hnil; subst t1.
    apply perform_last_slot in Hd.
    destruct c as [w|w|w|w|w|w]; try discriminate.
    unfold perform, element. rewrite Hd, Hel.
    destruct d as [v|v|v|v|v|v]; cbn [category] in Hd1, Hd3;
      try congruence; cbn [formatted]; try reflexivity;
      destruct v; reflexivity.
Qed.

Lemma out_of_order_call_throws_witness :
  (perform (AddId "b") (state_after (chain [AddClass "a"] initial))
   = Throw OrderViolation initial) /\
  (perform (AddElement "div") (state_after (chain [AddId "id"] initial))
   = Throw OrderViolation initial).
Proof.
  split.
  - apply (proj1 (out_of_order_call_throws initial
                      (state_after (chain [AddClass "a"] initial))
                      [] [] (AddClass "a") (AddId "b") eq_refl eq_refl));
      [reflexivity | cbn; lia].
  - apply (proj2 (out_of_order_call_throws initial
                      (state_after (chain [AddId "id"] initial))
                      [] [] (AddId "id") (AddElement "div") eq_refl eq_refl));
      try reflexivity; cbn; lia.
Defined.

Lemma counters_kept_nonzero (c : call) (this this1 : builder) :
  perform c this = Normal tt this1 ->
  is_element c = false ->
  (idCount this <> 0 -> idCount this1 <> 0) /\
  (psCount this <> 0 -> psCount this1 <> 0).
Proof.
  destruct c as [v|v|v|v|v|v]; try discriminate;
    unfold perform, id, class, attr, pseudoClass, pseudoElement, errorHandler;
    intros H _;
    repeat match type of H with
           | context [if ?b then _ else _] => destruct b eqn:?
           end;
    inversion H; subst; simpl_fields; split; intros; try lia; auto.
Qed.

Lemma chain_counters_kept_nonzero (mid : list call) :
  forall this this1,
    chain mid this = Normal tt this1 ->
    existsb is_element mid = false ->
    (idCount this <> 0 -> idCount this1 <> 0) /\
    (psCount this <> 0 -> psCount this1 <> 0).
Proof.
  induction mid as [|c mid IH]; intros this this1 H Hfree.
  - cbn [chain] in H. inversion H; subst. auto.
  - cbn [existsb] in Hfree. apply orb_false_iff in Hfree.
    destruct Hfree as [Hc Hfree].
    apply chain_cons in H. destruct H as (t1 & Hp & Hrest).
    destruct (counters_kept_nonzero c this t1 Hp Hc) as [Hi Hs].
    destruct (IH t1 this1 Hrest Hfree) as [Hi' Hs']. auto.
Qed.

(** C3, counterexample: [element('a').id('b').element('c')] adds a second
    element and nothing is thrown. *)
Lemma second_element_after_id_returns :
  chain [AddElement "a"; AddId "b"; AddElement "c"] initial
  = Normal tt
      {| arr := [str "a"; str "#b"; null; str "c"]; comb := [];
         isCombo := true; elCount := 1; idCount := 0; psCount := 0 |}.
Proof. reflexivity. Qed.

(** C3 (amended): a second id, and a second pseudoElement, throws the
    duplicate error and resets the builder whichever fragments other than
    an element were added in between; a second element throws the duplicate
    error when it comes directly after the first one, whose value is not
    empty and does not start with one of [. # : [] or a space. *)
Theorem duplicate_call_throws
    (this this1 : builder) (v v' : string) (mid : list call) :
  existsb is_element mid = false ->
  (chain (AddId v :: mid) this = Normal tt this1 ->
   id v' this1 = Throw DuplicateViolation (reset this1)) /\
  (chain (AddPseudoElement v :: mid) this = Normal tt this1 ->
   pseudoElement v' this1 = Throw DuplicateViolation (reset this1)) /\
  (chain [AddElement v] this = Normal tt this1 ->
   truthy (str v) = true ->
   match_first [".";"#";":";"[";" "]%char (str v) = false ->
   element v' this1 = Throw DuplicateViolation (reset this1)).
Proof.
  intros Hfree. repeat split.
  - intros H. apply chain_cons in H. destruct H as (t1 & Hid & Hmid).
    assert (H1 : idCount t1 <> 0).
    { unfold perform, id, errorHandler in Hid.
      repeat match type of Hid with
             | context [if ?b then _ else _] => destruct b
             end; inversion Hid; subst; simpl_fields; lia. }
    apply (chain_counters_kept_nonzero mid t1 this1 Hmid Hfree) in H1.
    unfold id. apply Nat.eqb_neq in H1. rewrite H1. reflexivity.
  - intros H. apply chain_cons in H. destruct H as (t1 & Hps & Hmid).
    assert (H1 : psCount t1 <> 0).
    { unfold perform, pseudoElement, errorHandler in Hps.
      repeat match type of Hps with
             | context [if ?b then _ else _] => destruct b
             end; inversion Hps; subst; simpl_fields; lia. }
    apply (chain_counters_kept_nonzero mid t1 this1 Hmid Hfree) in H1.
    unfold pseudoElement. apply Nat.eqb_neq in H1. rewrite H1. reflexivity.
  - intros H Hv Hm. apply chain_cons in H. destruct H as (t1 & Hel & Hnil).
    cbn [chain] in Hnil. inversion Hnil; subst t1.
    apply perform_last_slot in Hel. cbn [formatted] in Hel.
    unfold element. rewrite Hel, Hv, Hm. reflexivity.
Qed.

Lemma duplicate_call_throws_witness :
  (id "y" (state_after (chain [AddId "x"; AddClass "c"] initial))
   = Throw DuplicateViolation initial) /\
  (pseudoElement "before"
     (state_after (chain [AddPseudoElement "after"] initial))
   = Throw DuplicateViolation initial) /\
  (element "div" (state_after (chain [AddElement "div"] initial))
   = Throw DuplicateViolation initial).
Proof.
  split; [|split].
  - exact (proj1 (duplicate_call_throws initial
                    (state_after (chain [AddId "x"; AddClass "c"] initial))
                    "x" "y" [AddClass "c"] eq_refl) eq_refl).
  - exact (proj1 (proj2 (duplicate_call_throws initial
                    (state_after (chain [AddPseudoElement "after"] initial))
                    "after" "before" [] eq_refl)) eq_refl).
  - exact (proj2 (proj2 (duplicate_call_throws initial
                    (state_after (chain [AddElement "div"] initial))
                    "div" "div" [] eq_refl)) eq_refl eq_refl eq_refl).
Defined.

(** ** [Rectangle] *)

(** C10: a rectangle built from [w] and [h] has width [w], height [h] and
    area [w * h]; [new Rectangle(10, 20).getArea()] is [200]. *)
Theorem Rectangle_getArea (w h : RectangleTask.number) :
  RectangleTask.width (RectangleTask.Rectangle w h) = w /\
  RectangleTask.height (RectangleTask.Rectangle w h) = h /\
  RectangleTask.getArea (RectangleTask.Rectangle w h) = (w * h)%float /\
  RectangleTask.getArea (RectangleTask.Rectangle 10%float 20%float) = 200%float.
Proof. repeat split. Qed.





(** ** Filling the placeholders *)

Lemma assign_fold_keeps_head (ts : list string) :
  forall (v : value) (rest : list value) (this : builder),
    is_null v = false ->
    arr (fold_left
           (fun t el => set_arr (assign_at_indexOf_null (arr t) (str el)) t)
           ts (set_arr (v :: rest) this))
    = v :: arr (fold_left
                  (fun t el => set_arr (assign_at_indexOf_null (arr t) (str el)) t)
                  ts (set_arr rest this)).
Proof.
  induction ts as [|t ts IH]; intros v rest this Hv.
  - reflexivity.
  - cbn [fold_left]. simpl_fields.
    replace (assign_at_indexOf_null (v :: rest) (str t))
      with (v :: assign_at_indexOf_null rest (str t))
      by (destruct v; [reflexivity | discriminate | reflexivity]).
    apply (IH v (assign_at_indexOf_null rest (str t)) this Hv).
Qed.

(** The [forEach] of [stringify] is one pass over the slots that hands the
    tokens, in order, to the placeholders. *)
Lemma assign_fold_is_fill (slots0 : list value) :
  forall (ts : list string) (this : builder),
    arr (fold_left
           (fun t el => set_arr (assign_at_indexOf_null (arr t) (str el)) t)
           ts (set_arr slots0 this))
    = fill slots0 ts.
Proof.
  induction slots0 as [|v rest IH]; intros ts this.
  - induction ts as [|t ts IHts]; [reflexivity|].
    cbn [fold_left]. simpl_fields. cbn [assign_at_indexOf_null]. exact IHts.
  - destruct v.
    + rewrite assign_fold_keeps_head by reflexivity.
      cbn [fill]. rewrite IH. reflexivity.
    + destruct ts as [|t ts]; [reflexivity|].
      cbn [fold_left fill]. simpl_fields. cbn [assign_at_indexOf_null].
      rewrite (assign_fold_keeps_head ts (str t) rest (set_arr (null :: rest) this))
        by reflexivity.
      rewrite IH. reflexivity.
    + rewrite assign_fold_keeps_head by reflexivity.
      cbn [fill]. rewrite IH. reflexivity.
Qed.

(** In composite mode with as many tokens as placeholders, [stringify]
    returns the join of the slots with the placeholders replaced by the
    tokens taken in the reverse of their recording order, and leaves the
    builder as new. *)
Lemma stringify_fills_in_reverse (this : builder) :
  isCombo this = true ->
  length (comb this) = length (filter is_null (arr this)) ->
  stringify this = Normal (join (fill (arr this) (rev (comb this)))) initial.
Proof.
  intros Hcombo Hlen. unfold stringify. rewrite Hcombo.
  apply Nat.eqb_eq in Hlen. rewrite Hlen.
  set (this1 := set_comb (rev (comb this)) this).
  replace this1 with (set_arr (arr this) this1) by (destruct this; reflexivity).
  simpl_fields. rewrite assign_fold_is_fill. reflexivity.
Qed.

Lemma append_nil_r (s : string) : s ++ "" = s.
Proof. induction s as [|c s IH]; simpl; congruence. Qed.

Lemma append_assoc (s t u : string) : (s ++ t) ++ u = s ++ t ++ u.
Proof. induction s as [|c s IH]; simpl; congruence. Qed.

Lemma concat_empty_cons (x : string) (xs : list string) :
  String.concat "" (x :: xs) = x ++ String.concat "" xs.
Proof.
  destruct xs as [|y ys]; cbn [String.concat].
  - symmetry. apply append_nil_r.
  - reflexivity.
Qed.

Lemma join_cons (v : value) (rest : list value) :
  join (v :: rest) = slot_text v ++ join rest.
Proof. unfold join. cbn [map]. apply concat_empty_cons. Qed.

Lemma join_app (a b : list value) :
  join (a ++ b) = join a ++ join b.
Proof.
  induction a as [|v a IH].
  - reflexivity.
  - cbn [app]. rewrite !join_cons, IH, append_assoc. reflexivity.
Qed.

Lemma fill_no_token (slots0 : list value) : fill slots0 [] = slots0.
Proof.
  induction slots0 as [|v rest IH]; [reflexivity|].
  destruct v; cbn [fill]; congruence.
Qed.

Lemma fill_strs (l : list string) (rest : list value) (ts : list string) :
  fill (map str l ++ rest) ts = (map str l ++ fill rest ts)%list.
Proof. induction l as [|x l IH]; cbn [map app fill]; congruence. Qed.

(** [stringify] whenever tokens and placeholders agree in number and the
    flag is set as soon as there is a token. *)
Lemma stringify_balanced (this : builder) :
  length (comb this) = length (filter is_null (arr this)) ->
  (isCombo this = false -> comb this = []) ->
  stringify this = Normal (join (fill (arr this) (rev (comb this)))) initial.
Proof.
  intros Hlen Hflag. destruct (isCombo this) eqn:E.
  - apply stringify_fills_in_reverse; assumption.
  - specialize (Hflag eq_refl). rewrite Hflag in *. cbn [rev].
    rewrite fill_no_token. apply stringify_no_placeholder; [|assumption].
    destruct (filter is_null (arr this)); [reflexivity | discriminate].
Qed.

(** ** Right-nested combinations *)

Lemma truthy_not_empty (l : list value) :
  truthy (last_slot l) = true -> l <> [].
Proof. intros H ->. discriminate. Qed.

Lemma element_opens (v : string) (this : builder) :
  may_open this ->
  plain_value (AddElement v) = true ->
  exists this1,
    element v this = Normal tt this1 /\
    arr this1 = (arr this ++ separator this ++ [str v])%list /\
    comb this1 = comb this /\
    elCount this1 <> 0 /\
    (arr this <> [] -> isCombo this1 = true) /\
    (arr this = [] -> isCombo this1 = isCombo this) /\
    ordered_upto 1 this1.
Proof.
  intros Hopen Hplain.
  pose proof (formatted_prefix_facts (AddElement v) Hplain) as (F3 & F4 & F5 & F6).
  cbn [formatted category] in *.
  assert (Hinv : forall this1 pre,
             arr this1 = (pre ++ [str v])%list ->
             idCount this1 = 0 -> psCount this1 = 0 ->
             ordered_upto 1 this1).
  { intros this1 pre Ha Hi Hp. unfold ordered_upto.
    rewrite Ha, last_slot_push, Hi, Hp.
    repeat split; auto; try congruence; discriminate. }
  destruct Hopen as [(Ha & Hi & Hp)|(Ht & Hm & He)].
  - unfold element, separator. rewrite Ha. cbn [last_slot last truthy andb].
    eexists. split; [reflexivity|]. simpl_fields. rewrite Ha.
    split; [reflexivity|]. split; [reflexivity|]. split; [lia|].
    split; [congruence|]. split; [reflexivity|].
    apply (Hinv _ []); simpl_fields; [rewrite Ha; reflexivity | assumption..].
  - pose proof (truthy_not_empty _ Ht) as Hne.
    assert (Hsep : separator this = [null])
      by (unfold separator; destruct (arr this); [congruence | reflexivity]).
    unfold element. rewrite Hsep, Ht, Hm.
    apply Nat.eqb_neq in He. rewrite He. cbn [negb andb].
    eexists. split; [reflexivity|]. simpl_fields.
    split; [rewrite <- app_assoc; reflexivity|].
    split; [reflexivity|]. split; [lia|].
    split; [reflexivity|]. split; [congruence|].
    apply (Hinv _ (arr this ++ [null])%list); simpl_fields; reflexivity.
Qed.

Lemma no_element_after_element (cs : list call) :
  forall latest,
    1 <= latest ->
    valid_ordering_from latest cs = true ->
    existsb is_element cs = false.
Proof.
  induction cs as [|c cs IH]; intros latest Hl H; [reflexivity|].
  cbn [valid_ordering_from existsb] in *.
  apply andb_true_iff in H. destruct H as [Hc Hrest].
  apply may_follow_bounds in Hc. destruct Hc as [Hle Hlt].
  rewrite (IH (category c)) by (assumption || lia).
  destruct c; cbn in *; try reflexivity. specialize (Hlt eq_refl). lia.
Qed.

Lemma elCount_kept (cs : list call) :
  forall this this1,
    chain cs this = Normal tt this1 ->
    existsb is_element cs = false ->
    elCount this1 = elCount this.
Proof.
  induction cs as [|c cs IH]; intros this this1 H Hfree.
  - cbn [chain] in H. inversion H. reflexivity.
  - cbn [existsb] in Hfree. apply orb_false_iff in Hfree.
    destruct Hfree as [Hc Hfree].
    apply chain_cons in H. destruct H as (t1 & Hp & Hrest).
    rewrite (IH t1 this1 Hrest Hfree).
    destruct c as [v|v|v|v|v|v]; try discriminate;
      unfold perform, id, class, attr, pseudoClass, pseudoElement,
        errorHandler in Hp;
      repeat match type of Hp with
             | context [if ?b then _ else _] => destruct b
             end;
      inversion Hp; reflexivity.
Qed.

Lemma prefixed_fragment (c : call) :
  is_element c = false ->
  truthy (str (formatted c)) = true /\
  match_first [".";"#";":";"[";" "]%char (str (formatted c)) = true.
Proof. destruct c; try discriminate; intros _; split; reflexivity. Qed.

Lemma compound_runs (cs : list call) (this : builder) :
  element_led cs = true ->
  may_open this ->
  exists this',
    chain cs this = Normal tt this' /\
    arr this' = (arr this ++ separator this ++ map str (map formatted cs))%list /\
    comb this' = comb this /\
    elCount this' <> 0 /\
    (arr this <> [] -> isCombo this' = true) /\
    (arr this = [] -> isCombo this' = isCombo this) /\
    (2 <= length cs ->
     truthy (last_slot (arr this')) = true /\
     match_first [".";"#";":";"[";" "]%char (last_slot (arr this')) = true).
Proof.
  intros Hled Hopen. destruct cs as [|[v|v|v|v|v|v] rest]; try discriminate.
  cbn [element_led] in Hled. apply andb_true_iff in Hled.
  destruct Hled as [Hvalid Hplain]. cbn [forallb] in Hplain.
  apply andb_true_iff in Hplain. destruct Hplain as [Pv Prest].
  destruct (element_opens v this Hopen Pv)
    as (t1 & Hel & Ha1 & Hc1 & He1 & Hf1 & Hg1 & Hinv1).
  destruct (chain_in_order rest 1 t1 Hinv1 Hvalid Prest)
    as (t2 & Hrun & Ha2 & Hc2 & Hf2 & _).
  pose proof (no_element_after_element rest 1 (le_n 1) Hvalid) as Hfree.
  pose proof (elCount_kept rest t1 t2 Hrun Hfree) as He2.
  exists t2. cbn [chain perform]. rewrite Hel. cbn [bind].
  split; [exact Hrun|].
  assert (Harr : arr t2
                 = (arr this ++ separator this
                    ++ map str (map formatted (AddElement v :: rest)))%list).
  { rewrite Ha2, Ha1. cbn [map formatted]. rewrite <- !app_assoc. reflexivity. }
  split; [exact Harr|]. split; [congruence|]. split; [congruence|].
  split; [intros H; rewrite Hf2; auto|].
  split; [intros H; rewrite Hf2; auto|].
  intros Hlen. cbn [length] in Hlen.
  destruct (exists_last (l := rest)) as (rest0 & l & ->).
  { intros ->. cbn in Hlen. lia. }
  rewrite Ha2, !map_app, app_assoc. cbn [map]. rewrite last_slot_push.
  apply prefixed_fragment.
  rewrite existsb_app in Hfree. apply orb_false_iff in Hfree.
  destruct Hfree as [_ Hl]. cbn [existsb] in Hl. rewrite orb_false_r in Hl.
  exact Hl.
Qed.

Lemma eval_right_nested (e : selector) :
  forall this,
    right_nested e = true ->
    may_open this ->
    exists this',
      eval e this = Normal tt this' /\
      arr this' = (arr this ++ separator this ++ slots e)%list /\
      comb this' = (comb this ++ tokens e)%list /\
      (arr this <> [] -> isCombo this' = true) /\
      (tokens e <> [] -> isCombo this' = true) /\
      (tokens e = [] -> arr this = [] -> isCombo this' = isCombo this).
Proof.
  induction e as [cs|a IHa c b IHb]; intros this Hrn Hopen.
  - cbn [right_nested] in Hrn.
    destruct (compound_runs cs this Hrn Hopen)
      as (t1 & Hrun & Ha & Hc & _ & Hf & Hg & _).
    exists t1. cbn [eval slots tokens]. rewrite app_nil_r.
    repeat split; auto; intros; congruence.
  - destruct a as [cs|a1 c1 a2]; [|discriminate]. cbn [right_nested] in Hrn.
    apply andb_true_iff in Hrn. destruct Hrn as [Hrn Hb].
    apply andb_true_iff in Hrn. destruct Hrn as [Hled Hlen].
    apply Nat.leb_le in Hlen.
    destruct (compound_runs cs this Hled Hopen)
      as (t1 & Hrun & Ha1 & Hc1 & He1 & _ & _ & Hlast).
    destruct (Hlast Hlen) as [Ht Hm].
    assert (Hopen1 : may_open t1) by (right; auto).
    destruct (IHb t1 Hb Hopen1) as (t2 & Hrun2 & Ha2 & Hc2 & Hflag & _).
    pose proof (truthy_not_empty _ Ht) as Hne.
    assert (Hsep : separator t1 = [null])
      by (unfold separator; destruct (arr t1); [congruence | reflexivity]).
    eexists. cbn [eval]. rewrite Hrun. cbn [bind]. rewrite Hrun2. cbn [bind].
    split; [reflexivity|]. unfold combine. simpl_fields.
    cbn [slots tokens]. rewrite Ha2, Ha1, Hsep, Hc2, Hc1.
    rewrite <- !app_assoc. cbn [app].
    repeat split; auto.
    intros H. destruct (tokens b); discriminate.
Qed.

Lemma placeholders_match_tokens (e : selector) :
  length (filter is_null (slots e)) = length (tokens e).
Proof.
  induction e as [cs|a IHa c b IHb]; cbn [slots tokens].
  - rewrite filter_is_null_strs. reflexivity.
  - rewrite filter_app, !length_app. cbn [filter is_null length]. lia.
Qed.

Lemma fill_right_nested (e : selector) :
  right_nested e = true ->
  join (fill (slots e) (rev (tokens e))) = expected e.
Proof.
  induction e as [cs|a IHa c b IHb]; intros Hrn.
  - cbn [slots tokens rev expected]. rewrite fill_no_token. apply join_strs.
  - destruct a as [cs|a1 c1 a2]; [|discriminate]. cbn [right_nested] in Hrn.
    apply andb_true_iff in Hrn. destruct Hrn as [_ Hb].
    cbn [slots tokens expected app]. rewrite rev_app_distr. cbn [rev app].
    rewrite fill_strs. cbn [fill]. rewrite join_app, join_strs, join_cons.
    cbn [slot_text]. rewrite (IHb Hb). unfold rendered.
    rewrite !append_assoc. reflexivity.
Qed.

(** X7: for combinations nested to the right, [combine(X1, c1, combine(X2,
    c2, ...))], run on a cleared builder, in which every compound opens
    with an element call, goes on in category order and has plain values
    (the element value does not start with one of [. [ :], no pseudo-class
    value starts with [:]), and every left operand has a further fragment
    after its element: [stringify] returns the operands joined by their
    combinators, each between single spaces, and leaves the builder as new.
    The reversal of [comb] undoes the inside-out order in which the nested
    [combine] calls record their tokens. *)
Theorem right_nested_combination_stringifies (e : selector) (this : builder) :
  right_nested e = true ->
  clean this ->
  stringified e this = Normal (expected e) initial.
Proof.
  intros Hrn (Ha & Hc & He & Hi & Hp).
  assert (Hopen : may_open this) by (left; auto).
  destruct (eval_right_nested e this Hrn Hopen)
    as (t & Hrun & Harr & Hcomb & _ & Hflag & _).
  unfold stringified. rewrite Hrun. cbn [bind].
  unfold separator in Harr. rewrite Ha in Harr. cbn [app] in Harr.
  rewrite Hc in Hcomb. cbn [app] in Hcomb.
  rewrite stringify_balanced.
  - rewrite Harr, Hcomb. rewrite (fill_right_nested e Hrn). reflexivity.
  - rewrite Harr, Hcomb. symmetry. apply placeholders_match_tokens.
  - intros Hf. rewrite Hcomb. destruct (tokens e) as [|t0 ts]; [reflexivity|].
    rewrite Hflag in Hf; discriminate.
Qed.

(** The example of the source's header comment. *)
Example header_comment_combination :
  stringified
    (Combine
       (Simple [AddElement "div"; AddId "main"; AddClass "container";
                AddClass "draggable"])
       "+"
       (Combine
          (Simple [AddElement "table"; AddId "data"])
          "~"
          (Combine
             (Simple [AddElement "tr"; AddPseudoClass "nth-of-type(even)"])
             " "
             (Simple [AddElement "td"; AddPseudoClass "nth-of-type(even)"]))))
    initial
  = Normal
      "div#main.container.draggable + table#data ~ tr:nth-of-type(even)   td:nth-of-type(even)"
      initial.
Proof. apply right_nested_combination_stringifies; [reflexivity | repeat split]. Defined.

(** Nested to the left, the same scheme swaps the combinators. *)
Example left_nested_combination_swaps :
  let e :=
    Combine
      (Combine (Simple [AddElement "a"; AddClass "x"]) "+"
         (Simple [AddElement "b"; AddClass "y"]))
      "~" (Simple [AddElement "c"]) in
  expected e = "a.x + b.y ~ c" /\
  stringified e initial = Normal "a.x ~ b.y + c" initial.
Proof. split; reflexivity. Qed.

(** ** Errors inside expressions *)

Lemma chain_throw_resets (cs : list call) :
  forall (this this' : builder) (ex : exn),
    chain cs this = Throw ex this' ->
    (ex = DuplicateViolation \/ ex = OrderViolation) /\ clean this'.
Proof.
  induction cs as [|c cs IH]; intros this this' ex H; [discriminate|].
  cbn [chain] in H. destruct (perform c this) as [[] t1|e1 t1] eqn:E; cbn [bind] in H.
  - apply (IH t1 this' ex H).
  - inversion H; subst. apply perform_throw_resets in E. tauto.
Qed.

Lemma eval_throw_resets (e : selector) :
  forall (this this' : builder) (ex : exn),
    eval e this = Throw ex this' ->
    (ex = DuplicateViolation \/ ex = OrderViolation) /\ clean this'.
Proof.
  induction e as [cs|a IHa c b IHb]; intros this this' ex H.
  - apply (chain_throw_resets cs this this' ex H).
  - cbn [eval] in H.
    destruct (eval a this) as [[] t1|e1 t1] eqn:Ea; cbn [bind] in H.
    + destruct (eval b t1) as [[] t2|e2 t2] eqn:Eb; cbn [bind] in H.
      * discriminate.
      * inversion H; subst. apply (IHb t1 this' ex Eb).
    + inversion H; subst. apply (IHa this this' ex Ea).
Qed.

(** X1: when [e.stringify()] throws, for any expression [e] built from
    chains and [combine], either a fragment call threw -- one of the two
    messages, with sequences and counters cleared -- or [stringify] itself
    threw its message-less error, and then the builder is not cleared and
    stays in composite mode. *)
Theorem stringified_throw_cases
    (e : selector) (this this' : builder) (ex : exn) :
  stringified e this = Throw ex this' ->
  ((ex = DuplicateViolation \/ ex = OrderViolation) /\ clean this') \/
  (ex = CompositionError /\ ~ clean this' /\ isCombo this' = true).
Proof.
  unfold stringified. intros H.
  destruct (eval e this) as [[] t|e1 t] eqn:E; cbn [bind] in H.
  - right. apply stringify_throw_keeps_state in H.
    destruct H as (-> & -> & Hflag & Hlen).
    split; [reflexivity|]. split; [|exact Hflag].
    intros (Ha & Hc & _). rewrite Ha, Hc in Hlen. apply Hlen. reflexivity.
  - left. inversion H; subst. apply (eval_throw_resets e this this' ex E).
Qed.

Lemma stringified_throw_cases_witness :
  ((DuplicateViolation = DuplicateViolation \/ DuplicateViolation = OrderViolation)
   /\ clean initial) \/
  (DuplicateViolation = CompositionError /\ ~ clean initial /\
   isCombo initial = true).
Proof.
  apply (stringified_throw_cases
           (Combine (Simple [AddElement "div"]) "+" (Simple [AddElement "p"]))
           initial initial DuplicateViolation).
  reflexivity.
Defined.

(** ** [stringify], case by case *)

(** X2: what [stringify] does in each state.  Outside composite mode it
    returns the join of the slots, whatever combinators are pending; in
    composite mode with as many combinators as placeholders it returns the
    join of the slots with the placeholders, from left to right, replaced by
    the combinators from the last recorded to the first; either way the
    builder is as new afterwards.  In composite mode with a different
    number of combinators it throws and changes nothing. *)
Theorem stringify_cases (this : builder) :
  (isCombo this = false ->
   stringify this = Normal (join (arr this)) initial) /\
  (isCombo this = true ->
   length (comb this) = length (filter is_null (arr this)) ->
   stringify this = Normal (join (fill (arr this) (rev (comb this)))) initial) /\
  (isCombo this = true ->
   length (comb this) <> length (filter is_null (arr this)) ->
   stringify this = Throw CompositionError this).
Proof.
  split; [|split].
  - intros Hflag. unfold stringify. rewrite Hflag.
    unfold counterReset, set_arr, set_comb, set_psCount, set_idCount,
      set_elCount; cbn. rewrite Hflag. reflexivity.
  - apply stringify_fills_in_reverse.
  - intros Hflag Hlen. unfold stringify. rewrite Hflag.
    apply Nat.eqb_neq in Hlen. rewrite Hlen. reflexivity.
Qed.

Lemma stringify_cases_witness :
  stringify {| arr := [str ".a"; str ".b"]; comb := [" + "]; isCombo := false;
               elCount := 0; idCount := 0; psCount := 0 |}
  = Normal ".a.b" initial /\
  stringify {| arr := [str "a"; str ".x"; null; str "b"; str ".y"; null; str "c"];
               comb := [" + "; " ~ "]; isCombo := true;
               elCount := 1; idCount := 0; psCount := 0 |}
  = Normal "a.x ~ b.y + c" initial /\
  stringify {| arr := [str "a"; str ".x"; null; str "b"]; comb := [];
               isCombo := true; elCount := 1; idCount := 0; psCount := 0 |}
  = Throw CompositionError
      {| arr := [str "a"; str ".x"; null; str "b"]; comb := [];
         isCombo := true; elCount := 1; idCount := 0; psCount := 0 |}.
Proof.
  split; [|split].
  - exact (proj1 (stringify_cases
                    {| arr := [str ".a"; str ".b"]; comb := [" + "];
                       isCombo := false;
                       elCount := 0; idCount := 0; psCount := 0 |}) eq_refl).
  - exact (proj1 (proj2 (stringify_cases
                    {| arr := [str "a"; str ".x"; null; str "b"; str ".y";
                               null; str "c"];
                       comb := [" + "; " ~ "]; isCombo := true;
                       elCount := 1; idCount := 0; psCount := 0 |}))
             eq_refl eq_refl).
  - apply (proj2 (proj2 (stringify_cases
                    {| arr := [str "a"; str ".x"; null; str "b"]; comb := [];
                       isCombo := true;
                       elCount := 1; idCount := 0; psCount := 0 |})) eq_refl).
    cbn. lia.
Defined.

(** ** Simple chains *)

Lemma chain_app_normal (cs1 cs2 : list call) :
  forall this t1,
    chain cs1 this = Normal tt t1 ->
    chain (cs1 ++ cs2) this = chain cs2 t1.
Proof.
  induction cs1 as [|c cs1 IH]; intros this t1 H.
  - cbn [chain] in H. inversion H. reflexivity.
  - apply chain_cons in H. destruct H as (t0 & Hc & Hrest).
    cbn [app chain]. rewrite Hc. cbn [bind]. apply (IH t0 t1 Hrest).
Qed.

Lemma perform_appends (c : call) (this this' : builder) :
  perform c this = Normal tt this' ->
  comb this' = comb this /\
  ((arr this' = (arr this ++ [str (formatted c)])%list /\
    isCombo this' = isCombo this) \/
   (arr this' = (arr this ++ [null; str (formatted c)])%list /\
    isCombo this' = true)).
Proof.
  destruct c as [v|v|v|v|v|v]; unfold perform, element, id, class, attr,
    pseudoClass, pseudoElement, errorHandler;
    repeat match goal with
           | |- context [if ?b then _ else _] => destruct b
           end;
    intros H; inversion H; subst; simpl_fields;
    (split; [reflexivity|]);
    try (left; split; reflexivity).
  right. rewrite <- app_assoc. split; reflexivity.
Qed.

Lemma filter_is_null_placeholder (l : list value) (v : value) :
  filter is_null (l ++ [null; v])%list <> [].
Proof.
  rewrite filter_app. cbn [filter is_null].
  destruct (filter is_null l); discriminate.
Qed.

Lemma filter_is_null_grows (l s : list value) :
  filter is_null l <> [] -> filter is_null (l ++ s)%list <> [].
Proof.
  rewrite filter_app. destruct (filter is_null l); [congruence | discriminate].
Qed.

Lemma chain_appends (cs : list call) :
  forall (this this' : builder),
    chain cs this = Normal tt this' ->
    comb this' = comb this /\
    ((arr this' = (arr this ++ map str (map formatted cs))%list /\
      isCombo this' = isCombo this) \/
     (filter is_null (arr this') <> [] /\ isCombo this' = true)).
Proof.
  induction cs as [|c cs IH]; intros this this' H.
  - cbn [chain] in H. inversion H; subst. cbn [map]. rewrite app_nil_r. auto.
  - apply chain_cons in H. destruct H as (t1 & Hc & Hrest).
    apply perform_appends in Hc. destruct Hc as [Hcomb Hc].
    destruct (IH t1 this' Hrest) as [Hcomb' Hrest'].
    split; [congruence|].
    destruct Hrest' as [[Ha Hf]|Hnull]; [|right; exact Hnull].
    destruct Hc as [[Ha1 Hf1]|[Ha1 Hf1]].
    + left. rewrite Ha, Ha1, <- app_assoc. split; [reflexivity | congruence].
    + right. split; [|congruence]. rewrite Ha, Ha1.
      apply filter_is_null_grows, filter_is_null_placeholder.
Qed.

(** X3: a chain of fragment calls followed by [stringify()], started on a
    cleared builder: whenever it returns, whatever the calls and their
    values, the result is the concatenation of the formatted fragments in
    call order, and the builder is as new.  A chain never returns a string
    with a fragment lost, altered or moved. *)
Theorem simple_chain_result (cs : list call) (this this' : builder) (s : string) :
  clean this ->
  stringified (Simple cs) this = Normal s this' ->
  s = rendered cs /\ this' = initial.
Proof.
  intros (Ha & Hc & _) H. unfold stringified in H. cbn [eval] in H.
  destruct (chain cs this) as [[] t|e t] eqn:E; cbn [bind] in H; [|discriminate].
  apply chain_appends in E. destruct E as [Hcomb [[Harr Hflag]|[Hnull Hflag]]].
  - rewrite Ha in Harr. cbn [app] in Harr.
    rewrite stringify_no_placeholder in H.
    + inversion H; subst. rewrite Harr, join_strs. split; reflexivity.
    + rewrite Harr. apply filter_is_null_strs.
    + congruence.
  - exfalso. unfold stringify in H. rewrite Hflag, Hcomb, Hc in H.
    destruct (filter is_null (arr t)); [congruence|]. discriminate.
Qed.

Lemma simple_chain_result_witness :
  "#main.container.editable"
  = rendered [AddId "main"; AddClass "container"; AddClass "editable"] /\
  initial = initial.
Proof.
  apply (simple_chain_result
           [AddId "main"; AddClass "container"; AddClass "editable"]
           initial initial "#main.container.editable").
  - repeat split.
  - reflexivity.
Defined.

(** X4: on a builder whose last fragment is the empty string (after
    [element('')]), as on one without fragments, no check looks at what came
    before: with the id and pseudo-element counters at zero every call
    returns and appends its fragment; so [element('').element('div')] is
    accepted. *)
Theorem falsy_last_fragment_accepts (c : call) (this : builder) :
  truthy (last_slot (arr this)) = false ->
  idCount this = 0 -> psCount this = 0 ->
  exists this',
    perform c this = Normal tt this' /\
    arr this' = (arr this ++ [str (formatted c)])%list /\
    comb this' = comb this /\
    isCombo this' = isCombo this.
Proof.
  intros Hlast Hid Hps.
  destruct c as [v|v|v|v|v|v]; unfold perform, element, id, class, attr,
    pseudoClass, pseudoElement;
    rewrite ?Hlast, ?Hid, ?Hps; cbn [andb negb Nat.eqb];
    eexists; (split; [reflexivity|]); simpl_fields; repeat split.
Qed.

Lemma falsy_last_fragment_accepts_witness :
  exists this',
    perform (AddElement "div") (state_after (element "" initial))
    = Normal tt this' /\
    arr this' = [str ""; str "div"] /\
    comb this' = [] /\
    isCombo this' = false.
Proof.
  apply (falsy_last_fragment_accepts (AddElement "div")
           (state_after (element "" initial)));
    reflexivity.
Defined.

(** ** Combinators without a placeholder *)

(** X5: when the two operands of [combine] together make one compound in
    category order -- the second does not open with an element -- no
    placeholder is pushed.  On a builder out of composite mode [stringify]
    then returns the fragments of both operands joined: the combinator is
    dropped without an error.  On a builder that an earlier error left in
    composite mode, cleared otherwise, the same expression throws the
    message-less error of [stringify] and the fragments stay. *)
Theorem combine_without_placeholder
    (cs1 cs2 : list call) (combinator : string) (this : builder) :
  in_category_order (cs1 ++ cs2) ->
  forallb plain_value (cs1 ++ cs2) = true ->
  clean this ->
  (isCombo this = false ->
   stringified (Combine (Simple cs1) combinator (Simple cs2)) this
   = Normal (rendered (cs1 ++ cs2)) initial) /\
  (isCombo this = true ->
   exists stuck,
     stringified (Combine (Simple cs1) combinator (Simple cs2)) this
     = Throw CompositionError stuck /\
     arr stuck = map str (map formatted (cs1 ++ cs2)) /\
     comb stuck = [" " ++ combinator ++ " "]).
Proof.
  intros Horder Hplain Hclean.
  pose proof (category_order_is_valid _ Horder) as Hvalid.
  destruct (chain_in_order (cs1 ++ cs2) 0 this
              (clean_ordered_upto this Hclean) Hvalid Hplain)
    as (t & Hrun & Harr & Hcomb & Hcombo & _).
  destruct (chain_app cs1 cs2 this t Hrun) as (t1 & H1 & H2).
  destruct Hclean as (Ha & Hc & _).
  rewrite Ha in Harr. cbn [app] in Harr.
  unfold stringified. cbn [eval]. rewrite H1. cbn [bind]. rewrite H2.
  cbn [bind]. unfold combine. cbn [bind].
  unfold stringify. simpl_fields. rewrite Hcombo, Hcomb, Hc. cbn [app].
  split; intros Hflag; rewrite Hflag.
  - unfold counterReset, set_arr, set_comb, set_psCount, set_idCount,
      set_elCount; cbn [arr comb isCombo elCount idCount psCount].
    rewrite Harr, join_strs, Hcombo, Hflag. reflexivity.
  - rewrite Harr, filter_is_null_strs. cbn [length Nat.eqb].
    eexists. split; [reflexivity|]. simpl_fields. auto.
Qed.

Lemma combine_without_placeholder_witness :
  stringified (Combine (Simple [AddElement "div"]) ">" (Simple [AddClass "a"]))
    initial
  = Normal "div.a" initial /\
  exists stuck,
    stringified (Combine (Simple [AddElement "div"]) ">" (Simple [AddClass "a"]))
      (state_after
         (chain [AddElement "ul"; AddClass "nav"; AddElement "li";
                 AddElement "a"] initial))
    = Throw CompositionError stuck /\
    arr stuck = map str (map formatted ([AddElement "div"] ++ [AddClass "a"])) /\
    comb stuck = [" " ++ ">" ++ " "].
Proof.
  assert (Horder : in_category_order ([AddElement "div"] ++ [AddClass "a"])).
  { exists [AddElement "div"], [], [AddClass "a"], [], [], [].
    cbn [length]. repeat split; auto. }
  split.
  - apply (proj1 (combine_without_placeholder
                    [AddElement "div"] [AddClass "a"] ">" initial
                    Horder eq_refl ltac:(repeat split))).
    reflexivity.
  - apply (proj2 (combine_without_placeholder
                    [AddElement "div"] [AddClass "a"] ">"
                    (state_after
                       (chain [AddElement "ul"; AddClass "nav"; AddElement "li";
                               AddElement "a"] initial))
                    Horder eq_refl ltac:(repeat split))).
    reflexivity.
Defined.

(** ** Combinations in general *)

Lemma separator_nonempty (this : builder) :
  arr this <> [] -> separator this = [null].
Proof. unfold separator. destruct (arr this); [congruence | reflexivity]. Qed.

Lemma eval_combinable (e : selector) :
  forall (more : bool) (this : builder),
    combinable more e = true ->
    may_open this ->
    exists this',
      eval e this = Normal tt this' /\
      arr this' = (arr this ++ separator this ++ slots e)%list /\
      comb this' = (comb this ++ tokens e)%list /\
      (arr this <> [] -> isCombo this' = true) /\
      (tokens e <> [] -> isCombo this' = true) /\
      (tokens e = [] -> arr this = [] -> isCombo this' = isCombo this) /\
      (more = true -> may_open this' /\ arr this' <> []).
Proof.
  induction e as [cs|a IHa c b IHb]; intros more this Hc Hopen.
  - cbn [combinable] in Hc. apply andb_true_iff in Hc. destruct Hc as [Hled Hlen].
    destruct (compound_runs cs this Hled Hopen)
      as (t1 & Hrun & Ha & Hcomb & He & Hf & Hg & Hlast).
    exists t1. cbn [eval slots tokens]. rewrite app_nil_r.
    split; [exact Hrun|]. split; [exact Ha|]. split; [exact Hcomb|].
    split; [exact Hf|]. split; [congruence|]. split; [auto|].
    intros ->. cbn [negb orb] in Hlen. apply Nat.leb_le in Hlen.
    destruct (Hlast Hlen) as [Ht Hm].
    split; [right; auto | apply (truthy_not_empty _ Ht)].
  - cbn [combinable] in Hc. apply andb_true_iff in Hc. destruct Hc as [Hca Hcb].
    destruct (IHa true this Hca Hopen)
      as (t1 & Hrun1 & Ha1 & Hc1 & _ & _ & _ & Hmore1).
    destruct (Hmore1 eq_refl) as [Hopen1 Hne1].
    destruct (IHb more t1 Hcb Hopen1)
      as (t2 & Hrun2 & Ha2 & Hc2 & Hflag2 & _ & _ & Hmore2).
    eexists. cbn [eval]. rewrite Hrun1. cbn [bind]. rewrite Hrun2. cbn [bind].
    split; [reflexivity|]. unfold combine. simpl_fields.
    cbn [slots tokens].
    split.
    { rewrite Ha2, Ha1, (separator_nonempty t1 Hne1).
      rewrite <- !app_assoc. reflexivity. }
    split.
    { rewrite Hc2, Hc1. rewrite <- !app_assoc. reflexivity. }
    split; [auto|]. split; [auto|].
    split; [intros H; destruct (tokens a), (tokens b); discriminate|].
    intros Hm. destruct (Hmore2 Hm) as [Hopen2 Hne2].
    split; [|exact Hne2].
    destruct Hopen2 as [(E & _)|(Ht & Hmf & Hel)]; [contradiction|].
    right. simpl_fields. auto.
Qed.

Lemma stringified_combinable (e : selector) (this : builder) :
  combinable false e = true ->
  clean this ->
  exists t,
    eval e this = Normal tt t /\ arr t = slots e /\ comb t = tokens e /\
    stringify t = Normal (join (fill (slots e) (rev (tokens e)))) initial.
Proof.
  intros Hc (Ha & Hcomb0 & He & Hi & Hp).
  assert (Hopen : may_open this) by (left; auto).
  destruct (eval_combinable e false this Hc Hopen)
    as (t & Hrun & Harr & Hcomb & _ & Hflag & _).
  unfold separator in Harr. rewrite Ha in Harr. cbn [app] in Harr.
  rewrite Hcomb0 in Hcomb. cbn [app] in Hcomb.
  exists t. split; [exact Hrun|]. split; [exact Harr|]. split; [exact Hcomb|].
  rewrite stringify_balanced.
  - rewrite Harr, Hcomb. reflexivity.
  - rewrite Harr, Hcomb. symmetry. apply placeholders_match_tokens.
  - intros Hf. rewrite Hcomb. destruct (tokens e) as [|t0 ts]; [reflexivity|].
    rewrite Hflag in Hf; discriminate.
Qed.

(** X6: for a combination expression of any nesting shape, run on a
    cleared builder, in which every compound opens with an element call,
    goes on in category order and has plain values (the element value does
    not start with one of [. [ :], no pseudo-class value starts with [:]),
    and every compound that is followed by another one has a further
    fragment after its element: [stringify] returns the compounds in the
    order they are written, and between them the combinators in the reverse
    of the order in which the [combine] calls ran (an inner call runs before
    the call it is an argument of). *)
Theorem combination_stringifies (e : selector) (this : builder) :
  combinable false e = true ->
  clean this ->
  stringified e this
  = Normal (join (fill (slots e) (rev (tokens e)))) initial.
Proof.
  intros Hc Hclean.
  destruct (stringified_combinable e this Hc Hclean) as (t & Hrun & _ & _ & Hs).
  unfold stringified. rewrite Hrun. exact Hs.
Qed.

Lemma combination_stringifies_witness :
  stringified
    (Combine
       (Combine (Simple [AddElement "a"; AddClass "x"]) "+"
          (Simple [AddElement "b"; AddClass "y"]))
       "~"
       (Combine (Simple [AddElement "c"; AddId "z"]) ">"
          (Simple [AddElement "d"])))
    initial
  = Normal "a.x ~ b.y > c#z + d" initial.
Proof.
  apply (combination_stringifies
           (Combine
              (Combine (Simple [AddElement "a"; AddClass "x"]) "+"
                 (Simple [AddElement "b"; AddClass "y"]))
              "~"
              (Combine (Simple [AddElement "c"; AddId "z"]) ">"
                 (Simple [AddElement "d"])))
           initial).
  - reflexivity.
  - repeat split.
Defined.

(** X8: nested to the left, [combine(combine(A, c1, B), c2, C)], run on a
    cleared builder, with [A], [B] and [C] compounds that open with an
    element call, go on in category order and have plain values, [A] and
    [B] with a further fragment after their element, returns
    ["A c2 B c1 C"]: the two combinators change places. *)
Theorem left_nested_combinators_change_places
    (A B C : list call) (c1 c2 : string) (this : builder) :
  element_led A = true -> 2 <= length A ->
  element_led B = true -> 2 <= length B ->
  element_led C = true ->
  clean this ->
  stringified (Combine (Combine (Simple A) c1 (Simple B)) c2 (Simple C)) this
  = Normal (rendered A ++ " " ++ c2 ++ " " ++ rendered B
            ++ " " ++ c1 ++ " " ++ rendered C) initial.
Proof.
  intros HA LA HB LB HC Hclean.
  set (e := Combine (Combine (Simple A) c1 (Simple B)) c2 (Simple C)).
  assert (Hc : combinable false e = true).
  { cbn [e combinable]. rewrite HA, HB, HC.
    apply Nat.leb_le in LA, LB. rewrite LA, LB. reflexivity. }
  destruct (stringified_combinable e this Hc Hclean) as (t & Hrun & _ & _ & Hs).
  unfold stringified. rewrite Hrun. cbn [bind]. rewrite Hs.
  f_equal. cbn [e slots tokens app rev]. rewrite <- app_assoc. cbn [app].
  rewrite fill_strs. cbn [fill]. rewrite fill_strs. cbn [fill].
  rewrite fill_no_token.
  rewrite join_app, join_strs, join_cons, join_app, join_strs, join_cons, join_strs.
  cbn [slot_text]. unfold rendered. rewrite !append_assoc. reflexivity.
Qed.

Lemma left_nested_combinators_change_places_witness :
  stringified
    (Combine
       (Combine (Simple [AddElement "ul"; AddClass "nav"]) ">"
          (Simple [AddElement "li"; AddClass "item"]))
       "+" (Simple [AddElement "a"]))
    initial
  = Normal "ul.nav + li.item > a" initial.
Proof.
  apply (left_nested_combinators_change_places
           [AddElement "ul"; AddClass "nav"] [AddElement "li"; AddClass "item"]
           [AddElement "a"] ">" "+" initial);
    try reflexivity; try (cbn; lia).
  repeat split.
Defined.

(** X9: a chain, run on a cleared builder, that goes from one compound
    [A] on to a second one [B], with no [combine] call, both compounds
    opening with an element call, going on in category order and having
    plain values, [A] with a further fragment after its element: the second
    [element] call is accepted and pushes a placeholder, and [stringify]
    then throws its message-less error and leaves both compounds, with the
    placeholder, in the builder. *)
Theorem two_compounds_without_combine_throw
    (A B : list call) (this : builder) :
  element_led A = true -> 2 <= length A ->
  element_led B = true ->
  clean this ->
  exists stuck,
    stringified (Simple (A ++ B)) this = Throw CompositionError stuck /\
    arr stuck
    = (map str (map formatted A) ++ null :: map str (map formatted B))%list /\
    comb stuck = [] /\ isCombo stuck = true.
Proof.
  intros HA LA HB (Ha & Hc & He & Hi & Hp).
  assert (Hopen : may_open this) by (left; auto).
  destruct (compound_runs A this HA Hopen)
    as (t1 & Hrun1 & Ha1 & Hc1 & He1 & _ & _ & Hlast).
  destruct (Hlast LA) as [Ht Hm].
  assert (Hopen1 : may_open t1) by (right; auto).
  destruct (compound_runs B t1 HB Hopen1)
    as (t2 & Hrun2 & Ha2 & Hc2 & _ & Hflag & _ & _).
  pose proof (truthy_not_empty _ Ht) as Hne.
  rewrite (separator_nonempty t1 Hne) in Ha2.
  unfold separator in Ha1. rewrite Ha in Ha1. cbn [app] in Ha1.
  rewrite Ha1 in Ha2. cbn [app] in Ha2.
  exists t2. unfold stringified. cbn [eval].
  rewrite (chain_app_normal A B this t1 Hrun1), Hrun2. cbn [bind].
  split; [|split; [exact Ha2 | split; [congruence | auto]]].
  unfold stringify. rewrite (Hflag Hne), Hc2, Hc1, Hc, Ha2.
  rewrite filter_app, !filter_is_null_strs. reflexivity.
Qed.

Lemma two_compounds_without_combine_throw_witness :
  exists stuck,
    stringified
      (Simple ([AddElement "div"; AddClass "a"] ++ [AddElement "p"])) initial
    = Throw CompositionError stuck /\
    arr stuck = [str "div"; str ".a"; null; str "p"] /\
    comb stuck = [] /\ isCombo stuck = true.
Proof.
  apply (two_compounds_without_combine_throw
           [AddElement "div"; AddClass "a"] [AddElement "p"] initial);
    try reflexivity.
  repeat split.
Defined.

(** ** What the methods keep true *)

Lemma filter_is_null_push_str (l : list value) (s : string) :
  filter is_null (l ++ [str s])%list = filter is_null l.
Proof. rewrite filter_app. cbn [filter is_null]. apply app_nil_r. Qed.

(** X10: in every state the object can get into through its methods --
    fragment calls, [combine] and [stringify], returning or throwing -- the
    id and pseudo-element counters are at most one, and the sequence holds a
    placeholder only in composite mode. *)
Theorem reachable_invariant (this : builder) :
  reachable this ->
  idCount this <= 1 /\ psCount this <= 1 /\
  (isCombo this = false -> filter is_null (arr this) = []).
Proof.
  induction 1 as [|c this _ (Hi & Hp & Hn)|k this _ IH|this _ (Hi & Hp & Hn)].
  - repeat split; auto.
  - destruct c as [v|v|v|v|v|v]; unfold perform, element, id, class, attr,
      pseudoClass, pseudoElement, errorHandler;
      repeat match goal with
             | |- context [if ?b then _ else _] => destruct b eqn:?
             end;
      simpl_fields; rewrite ?filter_is_null_push_str;
      repeat split; auto; try lia; try discriminate;
      repeat match goal with
             | H : negb _ = false |- _ => apply negb_false_iff in H
             | H : (_ =? 0)%nat = true |- _ => apply Nat.eqb_eq in H
             end; lia.
  - exact IH.
  - unfold stringify.
    destruct (isCombo this) eqn:E;
      [destruct (length (comb this) =? length (filter is_null (arr this)))%nat|];
      simpl_fields; repeat split; auto; congruence.
Qed.

Lemma reachable_invariant_witness :
  let this :=
    state_after
      (combine tt "+" tt
         (state_after
            (chain [AddElement "div"; AddId "main"; AddElement "p"] initial))) in
  idCount this <= 1 /\ psCount this <= 1 /\
  (isCombo this = false -> filter is_null (arr this) = []).
Proof.
  apply (reachable_invariant
           (state_after
              (combine tt "+" tt
                 (state_after
                    (chain [AddElement "div"; AddId "main"; AddElement "p"]
                       initial))))).
  apply reach_combine.
  apply (reach_call (AddElement "p")
           (state_after (chain [AddElement "div"; AddId "main"] initial))).
  apply (reach_call (AddId "main")
           (state_after (chain [AddElement "div"] initial))).
  apply (reach_call (AddElement "div") initial).
  apply reach_initial.
Defined.

(** ** JSON texts read back *)

Module JsonFacts.
Import JsNumber JsObject JSON JsonSpec.
#[local] Open Scope list_scope.
#[local] Open Scope N_scope.

Lemma span_token (p : N -> bool) (tok rest : list N) :
  forallb p tok = true ->
  match rest with [] => True | c :: _ => p c = false end ->
  span p (tok ++ rest) = (tok, rest).
Proof.
  intros Htok Hrest. induction tok as [|c tok IH]; cbn [app].
  - destruct rest as [|c r]; cbn [span]; [reflexivity | rewrite Hrest; reflexivity].
  - cbn [forallb] in Htok. apply andb_true_iff in Htok. destruct Htok as [Hc Htok].
    cbn [span]. rewrite Hc, (IH Htok). reflexivity.
Qed.

Lemma hex_value_digit (d : N) : d < 16 -> hex_value (hex_digit d) = Some d.
Proof.
  intros Hd. unfold hex_digit, hex_value.
  destruct (N.ltb_spec d 10).
  - replace ((48 <=? 48 + d) && (48 + d <=? 57))%bool with true.
    + f_equal. lia.
    + symmetry. apply andb_true_iff. split; apply N.leb_le; lia.
  - replace ((48 <=? 87 + d) && (87 + d <=? 57))%bool with false.
    + replace ((97 <=? 87 + d) && (87 + d <=? 102))%bool with true.
      * f_equal. lia.
      * symmetry. apply andb_true_iff. split; apply N.leb_le; lia.
    + symmetry. apply andb_false_iff. right. apply N.leb_gt. lia.
Qed.

Lemma hex4_unicode_escape (u : N) :
  u < 65536 ->
  hex4 (hex_digit (u / 4096)) (hex_digit ((u / 256) mod 16))
       (hex_digit ((u / 16) mod 16)) (hex_digit (u mod 16)) = Some u.
Proof.
  intros Hu. unfold hex4.
  rewrite !hex_value_digit.
  - f_equal.
    assert (E1 : u / 256 = u / 16 / 16) by (rewrite N.Div0.div_div; reflexivity).
    assert (E2 : u / 4096 = u / 256 / 16) by (rewrite N.Div0.div_div; reflexivity).
    pose proof (N.div_mod u 16 ltac:(lia)) as H1.
    pose proof (N.div_mod (u / 16) 16 ltac:(lia)) as H2.
    pose proof (N.div_mod (u / 256) 16 ltac:(lia)) as H3.
    rewrite <- E1 in H2. rewrite <- E2 in H3. lia.
  - apply N.mod_lt; lia.
  - apply N.mod_lt; lia.
  - apply N.mod_lt; lia.
  - apply N.Div0.div_lt_upper_bound; lia.
Qed.

Lemma parse_escape (u : N) (tail : list N) :
  u < 65536 ->
  parse_string_body (escape u ++ tail) = cons_to u (parse_string_body tail).
Proof.
  intros Hu. unfold escape.
  repeat match goal with
         | |- context [if (u =? ?k) then _ else _] =>
             destruct (N.eqb_spec u k) as [->|?]; [reflexivity|]
         end.
  destruct ((u <? 32) || is_lead u || is_trail u)%bool eqn:E.
  - unfold unicode_escape. cbn [app parse_string_body]. cbn [N.eqb Pos.eqb].
    rewrite (hex4_unicode_escape u Hu). reflexivity.
  - apply orb_false_iff in E. destruct E as [E _].
    apply orb_false_iff in E. destruct E as [E _].
    cbn [app parse_string_body].
    destruct (N.eqb_spec u 34); [contradiction|].
    destruct (N.eqb_spec u 92); [contradiction|].
    rewrite E. reflexivity.
Qed.

Lemma parse_raw_surrogate (u : N) (tail : list N) :
  (is_lead u || is_trail u)%bool = true ->
  parse_string_body (u :: tail) = cons_to u (parse_string_body tail).
Proof.
  intros H. assert (55296 <= u).
  { unfold is_lead, is_trail in H. apply orb_true_iff in H.
    destruct H as [H|H]; apply andb_true_iff in H; destruct H as [H _];
      apply N.leb_le in H; lia. }
  cbn [parse_string_body].
  destruct (N.eqb_spec u 34); [lia|].
  destruct (N.eqb_spec u 92); [lia|].
  destruct (N.ltb_spec u 32); [lia|]. reflexivity.
Qed.

Lemma parse_quote_body_len (n : nat) :
  forall (s rest : list N),
    (length s <= n)%nat ->
    valid_string s ->
    parse_string_body (quote_body s ++ rest) = Some (s, rest).
Proof.
  induction n as [|n IH]; intros s rest Hlen Hs.
  - destruct s; [reflexivity | cbn in Hlen; lia].
  - destruct s as [|u s1]; [reflexivity|].
    inversion Hs as [|? ? Hu Hs1]; subst.
    cbn [length] in Hlen. cbn [quote_body].
    destruct s1 as [|v s2].
    + rewrite <- app_assoc, parse_escape by assumption.
      rewrite (IH [] rest); [reflexivity | cbn; lia | constructor].
    + destruct (is_lead u && is_trail v)%bool eqn:E.
      * apply andb_true_iff in E. destruct E as [Eu Ev].
        inversion Hs1 as [|? ? Hv Hs2]; subst. cbn [length] in Hlen.
        cbn [app]. rewrite parse_raw_surrogate by (rewrite Eu; reflexivity).
        rewrite parse_raw_surrogate by (rewrite Ev; apply orb_true_r).
        rewrite (IH s2 rest); [reflexivity | lia | assumption].
      * rewrite <- app_assoc, parse_escape by assumption.
        rewrite (IH (v :: s2) rest); [reflexivity | cbn [length] in *; lia | assumption].
Qed.

Lemma parse_quote_body (s rest : list N) :
  valid_string s ->
  parse_string_body (quote_body s ++ rest) = Some (s, rest).
Proof. apply (parse_quote_body_len (length s)). apply le_n. Qed.


Lemma number_char_opens (c : N) : is_number_char c = true -> opens_value c.
Proof.
  unfold is_number_char, is_digit, opens_value, is_ws. intros H.
  repeat (apply orb_true_iff in H; destruct H as [H|H]);
    try (apply andb_true_iff in H; destruct H as [H1 H2];
         apply N.leb_le in H1; apply N.leb_le in H2);
    try (apply N.eqb_eq in H; subst c);
    repeat split; try reflexivity;
    repeat match goal with
           | |- context [c =? ?k] => destruct (N.eqb_spec c k); [lia|]
           end; reflexivity.
Qed.

Lemma number_char_dispatch (c : N) :
  is_number_char c = true ->
  (c =? 110) = false /\ (c =? 116) = false /\ (c =? 102) = false /\
  (c =? 34) = false /\ (c =? 91) = false /\ (c =? 123) = false.
Proof.
  unfold is_number_char, is_digit. intros H.
  repeat (apply orb_true_iff in H; destruct H as [H|H]);
    try (apply andb_true_iff in H; destruct H as [H1 H2];
         apply N.leb_le in H1; apply N.leb_le in H2);
    try (apply N.eqb_eq in H; subst c);
    repeat split; try reflexivity; apply N.eqb_neq; lia.
Qed.

Lemma number_text_head (n : float) :
  number_ok n ->
  exists c r, Number_toString n = c :: r /\ is_number_char c = true.
Proof.
  intros (_ & Hchars & Hparse).
  destruct (Number_toString n) as [|c r]; [discriminate|].
  cbn [forallb] in Hchars. apply andb_true_iff in Hchars.
  exists c, r. tauto.
Qed.

Lemma stringify_head (v : jvalue) :
  serializable v ->
  exists c r, stringify v = c :: r /\ opens_value c.
Proof.
  intros Hv. destruct Hv as [|[]|n Hn|s Hs|p items Hi|p props Hp Ho];
    try (eexists; eexists; split; [reflexivity | repeat split]).
  destruct (number_text_head n Hn) as (c & r & E & Hc).
  destruct Hn as (Hfin & _). exists c, r. cbn [stringify]. rewrite Hfin.
  split; [exact E | apply number_char_opens; exact Hc].
Qed.

Lemma skip_ws_head (c : N) (r : list N) :
  is_ws c = false -> skip_ws (c :: r) = c :: r.
Proof. intros H. cbn [skip_ws]. rewrite H. reflexivity. Qed.

Lemma skip_ws_stringify (v : jvalue) (tail : list N) :
  serializable v -> skip_ws (stringify v ++ tail) = stringify v ++ tail.
Proof.
  intros Hv. destruct (stringify_head v Hv) as (c & r & E & Hws & _).
  rewrite E. cbn [app]. apply skip_ws_head. exact Hws.
Qed.


Lemma parse_elements_back (items : list jvalue) :
  forall (x : jvalue) (fuel : nat) (rest : list N),
    Forall parses_back (x :: items) ->
    Forall serializable (x :: items) ->
    (list_size (x :: items) <= fuel)%nat ->
    parse_elements fuel (stringify x ++ elements_tail stringify items ++ rest)
    = Some (plain x :: map plain items, rest).
Proof.
  induction items as [|y items IH]; intros x fuel rest HP HS Hfuel;
    inversion HP as [|? ? Px HP']; inversion HS as [|? ? Sx HS']; subst;
    unfold list_size in Hfuel; cbn [fold_right] in Hfuel;
    (destruct fuel as [|f]; [lia|]); cbn [parse_elements].
  - rewrite (Px Sx); [|lia|reflexivity]. reflexivity.
  - rewrite (Px Sx); [|lia|reflexivity].
    cbn [elements_tail app skip_ws is_ws N.eqb Pos.eqb orb].
    rewrite <- app_assoc, skip_ws_stringify by (inversion HS'; assumption).
    rewrite (IH y f rest HP' HS'); [reflexivity|].
    unfold list_size. cbn [fold_right]. lia.
Qed.

Lemma skip_ws_quote (k tail : list N) :
  skip_ws (quote k ++ tail) = quote k ++ tail.
Proof. reflexivity. Qed.

Lemma parse_members_back (props : list (list N * jvalue)) :
  forall (k : list N) (x : jvalue) (fuel : nat) (rest : list N),
    Forall (fun kv => parses_back (snd kv)) ((k, x) :: props) ->
    Forall (fun kv => valid_string (fst kv) /\ serializable (snd kv))
      ((k, x) :: props) ->
    (props_size ((k, x) :: props) <= fuel)%nat ->
    parse_members fuel
      (quote k ++ 58 :: stringify x ++ members_tail stringify props ++ rest)
    = Some ((k, plain x) :: plain_props props, rest).
Proof.
  induction props as [|[k' y] props IH]; intros k x fuel rest HP HS Hfuel;
    inversion HP as [|? ? Px HP']; inversion HS as [|? ? [Sk Sx] HS']; subst;
    cbn [fst snd] in *;
    unfold props_size in Hfuel; cbn [fold_right snd] in Hfuel;
    (destruct fuel as [|f]; [lia|]);
    unfold quote; cbn [parse_members app N.eqb Pos.eqb];
    rewrite (parse_quote_body k _ Sk);
    cbn [skip_ws is_ws N.eqb Pos.eqb orb];
    rewrite skip_ws_stringify by assumption.
  - rewrite (Px Sx); [|lia|reflexivity]. reflexivity.
  - rewrite (Px Sx); [|lia|reflexivity].
    cbn [members_tail app skip_ws is_ws N.eqb Pos.eqb orb].
    rewrite <- app_assoc. cbn [app]. rewrite <- app_assoc.
    rewrite skip_ws_quote.
    rewrite (IH k' y f rest HP' HS'); [reflexivity|].
    unfold props_size. cbn [fold_right snd]. lia.
Qed.


Section MapValues.
Variable g : jvalue -> jvalue.


Lemma has_key_map_values k props :
  has_key k (map_values g props) = has_key k props.
Proof.
  induction props as [|[k' v'] props IH]; [reflexivity|].
  cbn [map_values map has_key fst snd]. fold (map_values g props).
  rewrite IH. reflexivity.
Qed.

Lemma replace_value_map_values k v props :
  replace_value k (g v) (map_values g props) = map_values g (replace_value k v props).
Proof.
  induction props as [|[k' v'] props IH]; [reflexivity|].
  cbn [map_values map replace_value fst snd]. fold (map_values g props).
  destruct (units_eqb k k'); [reflexivity|].
  rewrite IH. reflexivity.
Qed.

Lemma insert_index_map_values i k v props :
  insert_index i k (g v) (map_values g props) = map_values g (insert_index i k v props).
Proof.
  induction props as [|[k' v'] props IH]; [reflexivity|].
  cbn [map_values map insert_index fst snd]. fold (map_values g props).
  destruct (array_index k') as [j|]; [|reflexivity].
  destruct (i <? j)%Z; [reflexivity|].
  rewrite IH. reflexivity.
Qed.

Lemma define_property_map_values props k v :
  define_property (map_values g props) (k, g v)
  = map_values g (define_property props (k, v)).
Proof.
  unfold define_property. rewrite has_key_map_values.
  destruct (has_key k props); [apply replace_value_map_values|].
  destruct (array_index k) as [i|]; [apply insert_index_map_values|].
  unfold map_values. rewrite map_app. reflexivity.
Qed.

Lemma fold_define_map_values members :
  forall acc,
    fold_left define_property (map_values g members) (map_values g acc)
    = map_values g (fold_left define_property members acc).
Proof.
  induction members as [|[k v] members IH]; intros acc; [reflexivity|].
  cbn [map_values map fold_left fst snd]. fold (map_values g members).
  rewrite define_property_map_values. apply IH.
Qed.

Lemma build_object_map_values members :
  build_object (map_values g members) = map_values g (build_object members).
Proof. apply (fold_define_map_values members []). Qed.
End MapValues.


Lemma build_object_plain (props : list (list N * jvalue)) :
  own_property_order props ->
  build_object (plain_props props) = plain_props props.
Proof.
  intros H. unfold plain_props.
  change (map (fun kv => (fst kv, plain (snd kv))) props)
    with (map_values plain props).
  rewrite build_object_map_values, H. reflexivity.
Qed.

Lemma serializable_parses_back (v : jvalue) : parses_back v.
Proof.
  induction v as [|b|n|s|p items IH|p props IH] using value_induction;
    intros Hv rest fuel Hfuel Hrest;
    (destruct fuel as [|f]; [cbn in Hfuel; lia|]).
  - reflexivity.
  - destruct b; reflexivity.
  - inversion Hv as [| |? Hn| | |]; subst.
    destruct (number_text_head n Hn) as (c & r & E & Hc).
    destruct Hn as (Hfin & Hchars & Hparse).
    cbn [stringify plain]. rewrite Hfin.
    destruct (number_char_dispatch c Hc) as (H1 & H2 & H3 & H4 & H5 & H6).
    rewrite E. cbn [app parse_value]. unfold parse_atom.
    rewrite H1, H2, H3, H4, H5, H6, Hc.
    change (c :: r ++ rest) with ((c :: r) ++ rest). rewrite <- E.
    rewrite (span_token is_number_char _ rest Hchars Hrest), Hparse.
    reflexivity.
  - inversion Hv as [| | |? Hs| |]; subst.
    cbn [stringify plain]. unfold quote.
    cbn [app parse_value parse_atom N.eqb Pos.eqb].
    rewrite (parse_quote_body s rest Hs). reflexivity.
  - inversion Hv as [| | | |? ? Hitems|]; subst.
    destruct items as [|x items]; [reflexivity|].
    cbn [stringify plain map app parse_value N.eqb Pos.eqb].
    rewrite <- app_assoc.
    assert (Sx : serializable x) by (inversion Hitems; assumption).
    destruct (stringify_head x Sx) as (c & r & E & Hws & H93 & _).
    rewrite skip_ws_stringify by assumption.
    rewrite E. cbn [app]. rewrite H93.
    change (c :: r ++ elements_tail stringify items ++ rest)
      with ((c :: r) ++ elements_tail stringify items ++ rest).
    rewrite <- E.
    rewrite (parse_elements_back items x f rest IH Hitems); [reflexivity|].
    cbn [size] in Hfuel. unfold list_size. lia.
  - inversion Hv as [| | | | |? ? Hprops Horder]; subst.
    destruct props as [|[k x] props]; [reflexivity|].
    cbn [stringify plain app parse_value N.eqb Pos.eqb].
    rewrite <- app_assoc. cbn [app]. rewrite <- app_assoc.
    rewrite skip_ws_quote.
    unfold quote at 1. cbn [app N.eqb Pos.eqb]. fold (quote k).
    change (34 :: quote_body k ++ 58 :: stringify x ++ members_tail stringify props ++ rest)
      with (quote k ++ 58 :: stringify x ++ members_tail stringify props ++ rest).
    rewrite (parse_members_back props k x f rest IH Hprops).
    + change ((k, plain x) :: plain_props props) with (plain_props ((k, x) :: props)).
      rewrite (build_object_plain _ Horder). reflexivity.
    + cbn [size] in Hfuel. unfold props_size. lia.
Qed.

Lemma elements_tail_size (items : list jvalue) :
  Forall (fun v => serializable v -> (size v <= 2 * length (stringify v))%nat) items ->
  Forall serializable items ->
  (list_size items + 2 <= 2 * length (elements_tail stringify items))%nat.
Proof.
  induction items as [|y items IH]; intros HP HS.
  - cbn. lia.
  - inversion HP as [|? ? Py HP']; inversion HS as [|? ? Sy HS']; subst.
    specialize (IH HP' HS'). specialize (Py Sy).
    unfold list_size in *. cbn [fold_right elements_tail length].
    rewrite length_app. lia.
Qed.

Lemma members_tail_size (props : list (list N * jvalue)) :
  Forall (fun kv => serializable (snd kv) ->
                    (size (snd kv) <= 2 * length (stringify (snd kv)))%nat) props ->
  Forall (fun kv => valid_string (fst kv) /\ serializable (snd kv)) props ->
  (props_size props + 2 <= 2 * length (members_tail stringify props))%nat.
Proof.
  induction props as [|[k y] props IH]; intros HP HS.
  - cbn. lia.
  - inversion HP as [|? ? Py HP']; inversion HS as [|? ? [_ Sy] HS']; subst.
    specialize (IH HP' HS'). cbn [snd] in *. specialize (Py Sy).
    unfold props_size in *. cbn [fold_right members_tail length snd].
    rewrite length_app. cbn [length]. rewrite length_app. lia.
Qed.

Lemma size_le_text (v : jvalue) :
  serializable v -> (size v <= 2 * length (stringify v))%nat.
Proof.
  induction v as [|b|n|s|p items IH|p props IH] using value_induction;
    intros Hv.
  - cbn. lia.
  - destruct b; cbn; lia.
  - inversion Hv as [| |? Hn| | |]; subst.
    destruct (stringify_head _ Hv) as (c & r & E & _). rewrite E. cbn. lia.
  - cbn. lia.
  - inversion Hv as [| | | |? ? Hitems|]; subst.
    destruct items as [|x items]; [cbn; lia|].
    inversion IH as [|? ? Px IH']; inversion Hitems as [|? ? Sx Hitems']; subst.
    pose proof (elements_tail_size items IH' Hitems') as Ht.
    specialize (Px Sx). cbn [size stringify length fold_right].
    rewrite length_app. unfold list_size in Ht. lia.
  - inversion Hv as [| | | | |? ? Hprops _]; subst.
    destruct props as [|[k x] props]; [cbn; lia|].
    inversion IH as [|? ? Px IH']; inversion Hprops as [|? ? [_ Sx] Hprops']; subst.
    pose proof (members_tail_size props IH' Hprops') as Ht.
    cbn [snd] in *. specialize (Px Sx). cbn [size stringify length fold_right snd].
    rewrite length_app. cbn [length]. rewrite length_app.
    unfold props_size in Ht. lia.
Qed.

Theorem parse_stringify (v : jvalue) :
  serializable v -> JSON.parse (JSON.stringify v) = Returns (plain v).
Proof.
  intros Hv. unfold parse.
  rewrite <- (app_nil_r (stringify v)) at 2.
  rewrite skip_ws_stringify by assumption.
  rewrite (serializable_parses_back v Hv [] _); [reflexivity | | exact I].
  pose proof (size_le_text v Hv). lia.
Qed.

(** ** The fuel of [JSON.parse] *)

Lemma skip_ws_length (s : list N) : (length (skip_ws s) <= length s)%nat.
Proof.
  induction s as [|c s IH]; [apply le_n|].
  cbn [skip_ws]. destruct (is_ws c); cbn [length]; lia.
Qed.

Lemma strip_prefix_length (lit : list N) :
  forall s r, strip_prefix lit s = Some r -> (length r <= length s)%nat.
Proof.
  induction lit as [|a lit IH]; intros s r H.
  - inversion H. apply le_n.
  - destruct s as [|b s]; [discriminate|]. cbn [strip_prefix] in H.
    destruct (a =? b); [|discriminate]. apply IH in H. cbn [length]. lia.
Qed.

Lemma span_length (p : N -> bool) (s : list N) :
  forall a b, span p s = (a, b) -> (length b <= length s)%nat.
Proof.
  induction s as [|c s IH]; intros a b H; cbn [span] in H.
  - inversion H. apply le_n.
  - destruct (p c).
    + destruct (span p s) as [a' b']. inversion H; subst.
      specialize (IH a' b eq_refl). cbn [length]. lia.
    + inversion H. apply le_n.
Qed.

Lemma cons_to_length {A : Type} (a : A) (o : option (list A * list N))
      (l : list A) (r : list N) (n : nat) :
  (forall l' r', o = Some (l', r') -> (length r' < n)%nat) ->
  cons_to a o = Some (l, r) -> (length r < n)%nat.
Proof.
  intros H E. destruct o as [[l' r']|]; [|discriminate].
  inversion E; subst. apply (H l'). reflexivity.
Qed.

Lemma parse_string_body_length (n : nat) :
  forall s k r,
    (length s <= n)%nat ->
    parse_string_body s = Some (k, r) -> (length r < length s)%nat.
Proof.
  induction n as [|n IH]; intros s k r Hn H.
  - destruct s; [discriminate | cbn in Hn; lia].
  - destruct s as [|c s1]; [discriminate|]. cbn [length] in Hn.
    cbn [parse_string_body] in H.
    destruct (c =? 34).
    { inversion H; subst. cbn [length]. lia. }
    destruct (c =? 92).
    { destruct s1 as [|e s2]; [discriminate|]. cbn [length] in Hn.
      destruct (e =? 117).
      - destruct s2 as [|a [|b [|c' [|d s3]]]]; try discriminate.
        cbn [length] in Hn.
        destruct (hex4 a b c' d); [|discriminate].
        eapply cons_to_length in H.
        + cbn [length]. instantiate (1 := length s3) in H. lia.
        + intros l' r' E. apply (IH s3 l' r'); [lia | exact E].
      - destruct (simple_escape e); [|discriminate].
        eapply cons_to_length in H.
        + cbn [length]. instantiate (1 := length s2) in H. lia.
        + intros l' r' E. apply (IH s2 l' r'); [lia | exact E]. }
    destruct (c <? 32); [discriminate|].
    eapply cons_to_length in H.
    + cbn [length]. instantiate (1 := length s1) in H. lia.
    + intros l' r' E. apply (IH s1 l' r'); [lia | exact E].
Qed.

Lemma parse_atom_length (c : N) (r : list N) (v : jvalue) (rest : list N) :
  parse_atom c r = Some (v, rest) -> (length rest <= length r)%nat.
Proof.
  unfold parse_atom, literal. intros H.
  repeat match type of H with
         | (if (c =? ?k) then _ else _) = _ => destruct (c =? k)
         end.
  - destruct (strip_prefix _ r) eqn:E; [|discriminate]. inversion H; subst.
    apply (strip_prefix_length _ _ _ E).
  - destruct (strip_prefix _ r) eqn:E; [|discriminate]. inversion H; subst.
    apply (strip_prefix_length _ _ _ E).
  - destruct (strip_prefix _ r) eqn:E; [|discriminate]. inversion H; subst.
    apply (strip_prefix_length _ _ _ E).
  - destruct (parse_string_body r) as [[str rest']|] eqn:E; [|discriminate].
    inversion H; subst.
    pose proof (parse_string_body_length _ _ _ _ (le_n _) E). lia.
  - destruct (is_number_char c) eqn:Ec; [|discriminate].
    cbn [span] in H. rewrite Ec in H.
    destruct (span is_number_char r) as [a b] eqn:E.
    destruct (parse_number_token (c :: a)); [|discriminate].
    inversion H; subst. apply (span_length _ _ _ _ E).
Qed.

(** A run of the descent that succeeds consumes input, and succeeds alike
    with any fuel from twice the number of characters consumed. *)
Lemma parse_fuel_adequate (f : nat) :
  (forall s v r,
      parse_value f s = Some (v, r) ->
      (length r < length s)%nat /\
      forall g, (2 * (length s - length r) <= g)%nat ->
                parse_value g s = Some (v, r)) /\
  (forall s vs r,
      parse_elements f s = Some (vs, r) ->
      (length r + 2 <= length s)%nat /\
      forall g, (2 * (length s - length r) <= S g)%nat ->
                parse_elements g s = Some (vs, r)) /\
  (forall s ms r,
      parse_members f s = Some (ms, r) ->
      (length r + 2 <= length s)%nat /\
      forall g, (2 * (length s - length r) <= S g)%nat ->
                parse_members g s = Some (ms, r)).
Proof.
  induction f as [|f (IHv & IHe & IHm)];
    [repeat split; intros; discriminate|].
  split; [|split].
  - intros s v r H. cbn [parse_value] in H.
    destruct s as [|c r0]; [discriminate|].
    destruct (c =? 91) eqn:E91; [|destruct (c =? 123) eqn:E123].
    + destruct (skip_ws r0) as [|c1 r1] eqn:Ews; [discriminate|].
      pose proof (skip_ws_length r0) as Hws. rewrite Ews in Hws.
      destruct (c1 =? 93) eqn:E93.
      * inversion H; subst. cbn [length] in *. split; [lia|].
        intros g Hg. destruct g as [|g]; [lia|].
        cbn [parse_value]. rewrite E91, Ews, E93. reflexivity.
      * destruct (parse_elements f (c1 :: r1)) as [[items rest]|] eqn:Ee;
          [|discriminate].
        inversion H; subst. apply IHe in Ee. destruct Ee as [Hlen Hfuel].
        cbn [length] in *. split; [lia|].
        intros g Hg. destruct g as [|g]; [lia|].
        cbn [parse_value]. rewrite E91, Ews, E93, Hfuel; [reflexivity|].
        cbn [length]. lia.
    + destruct (skip_ws r0) as [|c1 r1] eqn:Ews; [discriminate|].
      pose proof (skip_ws_length r0) as Hws. rewrite Ews in Hws.
      destruct (c1 =? 125) eqn:E125.
      * inversion H; subst. cbn [length] in *. split; [lia|].
        intros g Hg. destruct g as [|g]; [lia|].
        cbn [parse_value]. rewrite E91, E123, Ews, E125. reflexivity.
      * destruct (parse_members f (c1 :: r1)) as [[members rest]|] eqn:Em;
          [|discriminate].
        inversion H; subst. apply IHm in Em. destruct Em as [Hlen Hfuel].
        cbn [length] in *. split; [lia|].
        intros g Hg. destruct g as [|g]; [lia|].
        cbn [parse_value]. rewrite E91, E123, Ews, E125, Hfuel; [reflexivity|].
        cbn [length]. lia.
    + pose proof (parse_atom_length c r0 v r H) as Hlen.
      cbn [length]. split; [lia|].
      intros g Hg. destruct g as [|g]; [lia|].
      cbn [parse_value]. rewrite E91, E123. exact H.
  - intros s vs r H. cbn [parse_elements] in H.
    destruct (parse_value f s) as [[v r1]|] eqn:Ev; [|discriminate].
    apply IHv in Ev. destruct Ev as [Hl1 Hf1].
    destruct (skip_ws r1) as [|c r2] eqn:Ews; [discriminate|].
    pose proof (skip_ws_length r1) as Hws. rewrite Ews in Hws.
    cbn [length] in Hws.
    destruct (c =? 44) eqn:E44; [|destruct (c =? 93) eqn:E93; [|discriminate]].
    + destruct (parse_elements f (skip_ws r2)) as [[vs' r']|] eqn:Ee;
        [|discriminate].
      inversion H; subst. apply IHe in Ee. destruct Ee as [Hl2 Hf2].
      pose proof (skip_ws_length r2) as Hws2.
      split; [lia|].
      intros g Hg. destruct g as [|g]; [lia|].
      cbn [parse_elements]. rewrite Hf1 by lia. rewrite Ews, E44.
      rewrite Hf2 by lia. reflexivity.
    + inversion H; subst. split; [lia|].
      intros g Hg. destruct g as [|g]; [lia|].
      cbn [parse_elements]. rewrite Hf1 by lia. rewrite Ews, E44, E93.
      reflexivity.
  - intros s ms r H. cbn [parse_members] in H.
    destruct s as [|q r0]; [discriminate|].
    destruct (q =? 34) eqn:Eq; [|discriminate].
    destruct (parse_string_body r0) as [[k r1]|] eqn:Ek; [|discriminate].
    pose proof (parse_string_body_length _ _ _ _ (le_n _) Ek) as Hk.
    destruct (skip_ws r1) as [|c r2] eqn:Ews1; [discriminate|].
    pose proof (skip_ws_length r1) as Hws1. rewrite Ews1 in Hws1.
    cbn [length] in Hws1.
    destruct (c =? 58) eqn:E58; [|discriminate].
    destruct (parse_value f (skip_ws r2)) as [[v r3]|] eqn:Ev; [|discriminate].
    apply IHv in Ev. destruct Ev as [Hl3 Hf3].
    pose proof (skip_ws_length r2) as Hws2.
    destruct (skip_ws r3) as [|c' r4] eqn:Ews3; [discriminate|].
    pose proof (skip_ws_length r3) as Hws3. rewrite Ews3 in Hws3.
    cbn [length] in Hws3.
    destruct (c' =? 44) eqn:E44; [|destruct (c' =? 125) eqn:E125; [|discriminate]].
    + destruct (parse_members f (skip_ws r4)) as [[ms' r']|] eqn:Em;
        [|discriminate].
      inversion H; subst. apply IHm in Em. destruct Em as [Hl4 Hf4].
      pose proof (skip_ws_length r4) as Hws4.
      cbn [length]. split; [lia|].
      intros g Hg. destruct g as [|g]; [lia|].
      cbn [parse_members]. rewrite Eq, Ek, Ews1, E58.
      rewrite Hf3 by lia. rewrite Ews3, E44. rewrite Hf4 by lia. reflexivity.
    + inversion H; subst. cbn [length]. split; [lia|].
      intros g Hg. destruct g as [|g]; [lia|].
      cbn [parse_members]. rewrite Eq, Ek, Ews1, E58.
      rewrite Hf3 by lia. rewrite Ews3, E44, E125. reflexivity.
Qed.

(** [JSON.parse] returns exactly the value the text denotes... *)
Lemma parse_returns_iff (json : text) (v : jvalue) :
  JSON.parse json = Returns v <-> denotes json v.
Proof.
  unfold parse, denotes. split.
  - destruct (parse_value _ _) as [[v' r]|] eqn:E; [|discriminate].
    destruct (skip_ws r) eqn:Er; [|discriminate].
    intros H. inversion H; subst. eexists; eexists; split; eassumption.
  - intros (fuel & rest & Hparse & Hrest).
    destruct (parse_fuel_adequate fuel) as (Hv & _ & _).
    destruct (Hv _ _ _ Hparse) as [Hlen Hfuel].
    rewrite Hfuel, Hrest; [reflexivity|].
    pose proof (skip_ws_length json). lia.
Qed.

(** ... and throws, a [SyntaxError], exactly on the texts that denote
    nothing. *)
Lemma parse_throws_iff (json : text) (e : error) :
  JSON.parse json = Throws e <-> e = SyntaxError /\ ~ well_formed json.
Proof.
  split.
  - intros H. split.
    + unfold parse in H. destruct (parse_value _ _) as [[v r]|];
        [destruct (skip_ws r)|]; congruence.
    + intros (v & Hv). apply parse_returns_iff in Hv. congruence.
  - intros (-> & Hno). destruct (JSON.parse json) as [v|e] eqn:E.
    + exfalso. apply Hno. exists v. apply parse_returns_iff. exact E.
    + f_equal. unfold parse in E. destruct (parse_value _ _) as [[v r]|];
        [destruct (skip_ws r)|]; congruence.
Qed.


(** ** Numbers that read back *)

Lemma sf_same_eq (a b : spec_float) : sf_same a b = true -> a = b.
Proof.
  destruct a as [s|s| |s m e], b as [s'|s'| |s' m' e']; cbn [sf_same];
    try discriminate; intros H.
  - apply Bool.eqb_prop in H. congruence.
  - apply Bool.eqb_prop in H. congruence.
  - reflexivity.
  - apply andb_true_iff in H. destruct H as [H He].
    apply andb_true_iff in H. destruct H as [Hs Hm].
    apply Bool.eqb_prop in Hs. apply Pos.eqb_eq in Hm. apply Z.eqb_eq in He.
    congruence.
Qed.

Lemma reads_back_number_ok (n : float) : reads_back n = true -> number_ok n.
Proof.
  unfold reads_back, number_ok. intros H.
  apply andb_true_iff in H. destruct H as [H Hp].
  apply andb_true_iff in H. destruct H as [Hf Hc].
  split; [exact Hf|]. split; [exact Hc|].
  destruct (parse_number_token (Number_toString n)) as [n'|]; [|discriminate].
  apply sf_same_eq, Prim2SF_inj in Hp. congruence.
Qed.

(** The integers from 0 to 999 read back, by evaluation. *)
Lemma small_integers_read_back (z : Z) :
  (0 <= z < 1000)%Z -> number_ok (number_of_decimal false z 0).
Proof.
  intros Hz. apply reads_back_number_ok.
  assert (H : forallb (fun i => reads_back (number_of_decimal false (Z.of_nat i) 0))
                (seq 0 1000) = true) by (vm_compute; reflexivity).
  rewrite forallb_forall in H.
  specialize (H (Z.to_nat z)). rewrite Z2Nat.id in H by lia.
  apply H. apply in_seq. lia.
Qed.

(** The numbers of some decimal literals, among them the largest and the
    smallest positive number, [2^53 + 1] and a literal with 17 digits. *)
Lemma ordinary_numbers_read_back :
  Forall (fun d => number_ok (number_of_decimal (fst (fst d)) (snd (fst d)) (snd d)))
    [(false, 0, 0); (false, 1, 0); (true, 1, 0); (false, 1, -1);
     (false, 5, -1); (false, 314, -2); (true, 25, -1); (false, 1, 21);
     (false, 1, -7); (false, 123456789, 0); (false, 5, -324);
     (false, 17976931348623157, 292); (false, 9007199254740993, 0);
     (false, 12345678901234567, -16)]%Z.
Proof.
  apply Forall_forall. intros d Hd. apply reads_back_number_ok.
  revert d Hd. apply Forall_forall.
  repeat (constructor; [vm_compute; reflexivity|]). constructor.
Qed.

(** [-0] is written [0] and comes back as [0]: it is a finite number that
    does not read back as itself. *)
Lemma negative_zero_comes_back_positive (p q : proto) :
  getJSON (JArray q [JNumber (-0)]) = units "[0]" /\
  fromJSON p (getJSON (JArray q [JNumber (-0)])) = Returns (JArray p [JNumber 0]) /\
  ~ same_structure (JArray p [JNumber 0]) (JArray q [JNumber (-0)]) /\
  ~ number_ok (-0).
Proof.
  assert (Hz : forall a b : float,
             Prim2SF a = S754_zero false -> Prim2SF b = S754_zero true -> a <> b).
  { intros a b Ha Hb E. subst b. congruence. }
  split; [reflexivity|]. split; [reflexivity|]. split.
  - unfold same_structure. cbn [plain map]. intros H.
    apply (Hz 0%float (-0)%float eq_refl eq_refl). congruence.
  - intros (_ & _ & H).
    apply (Hz 0%float (-0)%float eq_refl eq_refl).
    change (Some 0%float = Some (-0)%float) in H. congruence.
Qed.

(** ** [getJSON] and [fromJSON] *)

(** What [fromJSON] makes of the text of a serializable value: the value
    read back with default prototypes goes to [Object.setPrototypeOf]. *)
Lemma fromJSON_getJSON (v : jvalue) (p : proto) :
  serializable v ->
  fromJSON p (getJSON v) = setPrototypeOf (plain v) p.
Proof.
  intros Hv. unfold fromJSON, getJSON. rewrite (parse_stringify v Hv).
  reflexivity.
Qed.


(** A primitive other than [null] comes back as it is: the prototype is
    not attached to it. *)
Lemma fromJSON_getJSON_primitive (v : jvalue) (p : proto) :
  serializable v ->
  is_object v = false ->
  v <> JNull ->
  fromJSON p (getJSON v) = Returns v /\ prototype v = None.
Proof.
  intros Hv Hobj Hnull. rewrite (fromJSON_getJSON v p Hv).
  destruct v; try discriminate; try contradiction; split; reflexivity.
Qed.



(** C9, counterexample: the text [null] is well-formed JSON, and
    [fromJSON] throws on it, a [TypeError]. *)
Lemma fromJSON_null_text_throws :
  well_formed (units "null") /\
  fromJSON (prototype_of "Circle") (units "null") = Throws TypeError.
Proof.
  split; [|reflexivity].
  exists JNull. apply parse_returns_iff. reflexivity.
Qed.

(** C9 (amended): [fromJSON(proto, json)] throws the parse error exactly
    when [json] is malformed; on well-formed JSON it throws only when the
    text denotes [null], and then a [TypeError]; any other value the text
    denotes is returned, with [proto] as its prototype if it is an object
    or an array. *)
Theorem fromJSON_throws (p : proto) (json : text) :
  (fromJSON p json = Throws SyntaxError <-> ~ well_formed json) /\
  (fromJSON p json = Throws TypeError <-> denotes json JNull) /\
  (forall v, denotes json v -> v <> JNull ->
             exists r, fromJSON p json = Returns r /\
                       same_structure r v /\
                       prototype r = if is_object v then Some p else None).
Proof.
  unfold fromJSON. split; [|split].
  - split.
    + intros H. destruct (JSON.parse json) as [v|e] eqn:E.
      * destruct v; discriminate.
      * apply parse_throws_iff in E. tauto.
    + intros H.
      rewrite (proj2 (parse_throws_iff json SyntaxError) (conj eq_refl H)).
      reflexivity.
  - split.
    + intros H. destruct (JSON.parse json) as [v|e] eqn:E.
      * destruct v; try discriminate. apply parse_returns_iff. exact E.
      * apply parse_throws_iff in E. destruct E as [-> _]. discriminate.
    + intros H. apply parse_returns_iff in H. rewrite H. reflexivity.
  - intros v H Hv. apply parse_returns_iff in H. rewrite H.
    destruct v; try contradiction; eexists; repeat split.
Qed.

Lemma fromJSON_throws_witness :
  fromJSON (prototype_of "Circle") (units "[1, 2") = Throws SyntaxError /\
  exists r,
    fromJSON (prototype_of "Circle") (units "[1, 2]") = Returns r /\
    same_structure r (JArray Array_prototype [JNumber 1; JNumber 2]) /\
    prototype r = Some (prototype_of "Circle").
Proof.
  split.
  - apply (proj1 (fromJSON_throws (prototype_of "Circle") (units "[1, 2"))).
    apply (parse_throws_iff _ SyntaxError). reflexivity.
  - apply (proj2 (proj2 (fromJSON_throws (prototype_of "Circle") (units "[1, 2]")))
             (JArray Array_prototype [JNumber 1; JNumber 2])).
    + apply parse_returns_iff. reflexivity.
    + discriminate.
Defined.

(** ** More on [getJSON] and [fromJSON] *)



(** ** What [fromJSON] returns *)

Lemma cons_to_some {A B : Type} (a : A) (o : option (list A * B))
      (l : list A) (b : B) :
  cons_to a o = Some (l, b) -> exists l', o = Some (l', b) /\ l = a :: l'.
Proof.
  destruct o as [[l' b']|]; [|discriminate].
  intros H. inversion H; subst. exists l'. auto.
Qed.

Lemma parse_atom_plain (c : N) (r : list N) (v : jvalue) (rest : list N) :
  parse_atom c r = Some (v, rest) -> plain v = v.
Proof.
  unfold parse_atom, literal. intros H.
  repeat match type of H with
         | (if (c =? ?k) then _ else _) = _ => destruct (c =? k)
         end.
  - destruct (strip_prefix _ r); [|discriminate]. inversion H; reflexivity.
  - destruct (strip_prefix _ r); [|discriminate]. inversion H; reflexivity.
  - destruct (strip_prefix _ r); [|discriminate]. inversion H; reflexivity.
  - destruct (parse_string_body r) as [[k rest']|]; [|discriminate].
    inversion H; reflexivity.
  - destruct (is_number_char c); [|discriminate].
    destruct (span is_number_char (c :: r)) as [tok rest'].
    destruct (parse_number_token tok); [|discriminate].
    inversion H; reflexivity.
Qed.

Lemma plain_props_build_object (members : list (list N * jvalue)) :
  plain_props members = members ->
  plain_props (build_object members) = build_object members.
Proof.
  intros H. change (plain_props (build_object members))
    with (map_values plain (build_object members)).
  rewrite <- build_object_map_values.
  change (map_values plain members) with (plain_props members).
  rewrite H. reflexivity.
Qed.

(** The values the descent builds carry the default prototypes at every
    level. *)
Lemma parse_value_plain (f : nat) :
  (forall s v r, parse_value f s = Some (v, r) -> plain v = v) /\
  (forall s vs r, parse_elements f s = Some (vs, r) -> map plain vs = vs) /\
  (forall s ms r, parse_members f s = Some (ms, r) -> plain_props ms = ms).
Proof.
  induction f as [|f (IHv & IHe & IHm)];
    [repeat split; intros; discriminate|].
  split; [|split].
  - intros s v r H. cbn [parse_value] in H.
    destruct s as [|c r0]; [discriminate|].
    destruct (c =? 91); [|destruct (c =? 123)].
    + destruct (skip_ws r0) as [|c1 r1]; [discriminate|].
      destruct (c1 =? 93); [inversion H; reflexivity|].
      destruct (parse_elements f (c1 :: r1)) as [[items rest]|] eqn:E;
        [|discriminate].
      inversion H; subst. cbn [plain]. rewrite (IHe _ _ _ E). reflexivity.
    + destruct (skip_ws r0) as [|c1 r1]; [discriminate|].
      destruct (c1 =? 125); [inversion H; reflexivity|].
      destruct (parse_members f (c1 :: r1)) as [[members rest]|] eqn:E;
        [|discriminate].
      inversion H; subst. cbn [plain].
      change (map (fun kv => (fst kv, plain (snd kv))) (build_object members))
        with (plain_props (build_object members)).
      rewrite (plain_props_build_object _ (IHm _ _ _ E)). reflexivity.
    + apply (parse_atom_plain c r0 v r H).
  - intros s vs r H. cbn [parse_elements] in H.
    destruct (parse_value f s) as [[v r1]|] eqn:Ev; [|discriminate].
    destruct (skip_ws r1) as [|c r2]; [discriminate|].
    destruct (c =? 44); [|destruct (c =? 93); [|discriminate]].
    + apply cons_to_some in H. destruct H as (vs' & E & ->).
      cbn [map]. rewrite (IHv _ _ _ Ev), (IHe _ _ _ E). reflexivity.
    + inversion H; subst. cbn [map]. rewrite (IHv _ _ _ Ev). reflexivity.
  - intros s ms r H. cbn [parse_members] in H.
    destruct s as [|q r0]; [discriminate|].
    destruct (q =? 34); [|discriminate].
    destruct (parse_string_body r0) as [[k r1]|]; [|discriminate].
    destruct (skip_ws r1) as [|c r2]; [discriminate|].
    destruct (c =? 58); [|discriminate].
    destruct (parse_value f (skip_ws r2)) as [[v r3]|] eqn:Ev; [|discriminate].
    destruct (skip_ws r3) as [|c' r4]; [discriminate|].
    destruct (c' =? 44); [|destruct (c' =? 125); [|discriminate]].
    + apply cons_to_some in H. destruct H as (ms' & E & ->).
      unfold plain_props. cbn [map fst snd]. rewrite (IHv _ _ _ Ev).
      fold (plain_props ms'). rewrite (IHm _ _ _ E). reflexivity.
    + inversion H; subst. unfold plain_props. cbn [map fst snd].
      rewrite (IHv _ _ _ Ev). reflexivity.
Qed.

(** X13: [fromJSON] attaches the prototype to the outermost value only:
    the elements of a returned array and the property values of a returned
    object carry the default prototypes at every level, so a nested object
    is a plain object whatever [proto] is. *)
Theorem fromJSON_outermost_prototype_only
    (p : proto) (json : text) (r : jvalue) :
  fromJSON p json = Returns r ->
  match r with
  | JArray q items => q = p /\ map plain items = items
  | JObject q props => q = p /\ plain_props props = props
  | _ => True
  end.
Proof.
  unfold fromJSON, parse. intros H.
  destruct (parse_value _ _) as [[v rest]|] eqn:E; [|discriminate].
  destruct (skip_ws rest); [|discriminate].
  destruct (parse_value_plain (2 * length json + 1)) as (Hv & _ & _).
  apply Hv in E.
  destruct v; cbn [setPrototypeOf] in H; inversion H; subst; try exact I;
    cbn [plain] in E; injection E as _ E'; (split; [reflexivity | exact E']).
Qed.

Lemma fromJSON_outermost_prototype_only_witness :
  prototype_of "Circle" = prototype_of "Circle" /\
  plain_props
    [(units "center", JObject Object_prototype [(units "x", JNumber 1)])]
  = [(units "center", JObject Object_prototype [(units "x", JNumber 1)])].
Proof.
  apply (fromJSON_outermost_prototype_only (prototype_of "Circle")
           ([123; 34] ++ units "center" ++ [34; 58; 123; 34] ++ units "x"
            ++ [34; 58; 49; 125; 125])
           (JObject (prototype_of "Circle")
              [(units "center", JObject Object_prototype [(units "x", JNumber 1)])])).
  reflexivity.
Defined.


(** ** Blank texts and white space around the text *)

Lemma skip_ws_blank (t : list N) : forallb is_ws t = true -> skip_ws t = [].
Proof.
  induction t as [|c t IH]; [reflexivity|]. cbn [forallb skip_ws].
  intros H. apply andb_true_iff in H. destruct H as [Hc Ht].
  rewrite Hc. exact (IH Ht).
Qed.

Lemma parse_value_nil (f : nat) : parse_value f [] = None.
Proof. destruct f; reflexivity. Qed.

(** X14: on the empty text, and on a text of white space only (spaces,
    tabs, line feeds, carriage returns), [fromJSON] throws the
    [SyntaxError]. *)
Theorem fromJSON_blank_text_throws (p : proto) (json : text) :
  forallb is_ws json = true -> fromJSON p json = Throws SyntaxError.
Proof.
  intros H. unfold fromJSON, parse.
  rewrite (skip_ws_blank json H), parse_value_nil. reflexivity.
Qed.

Lemma fromJSON_blank_text_throws_witness :
  fromJSON (prototype_of "Circle") [] = Throws SyntaxError /\
  fromJSON (prototype_of "Circle") [32; 9; 10; 13] = Throws SyntaxError.
Proof.
  split.
  - apply (fromJSON_blank_text_throws (prototype_of "Circle") []). reflexivity.
  - apply (fromJSON_blank_text_throws (prototype_of "Circle") [32; 9; 10; 13]).
    reflexivity.
Defined.

Section TrailingWhiteSpace.
Variable t : list N.
Hypothesis Ht : forallb is_ws t = true.

Lemma blank_cases :
  t = [] \/ exists c t', t = c :: t' /\ is_ws c = true /\ forallb is_ws t' = true.
Proof.
  destruct t as [|c t']; [left; reflexivity|]. right.
  cbn [forallb] in Ht. apply andb_true_iff in Ht. exists c, t'. tauto.
Qed.

Lemma ws_codes (c : N) : is_ws c = true -> c = 32 \/ c = 9 \/ c = 10 \/ c = 13.
Proof.
  unfold is_ws. intros H.
  repeat (apply orb_true_iff in H; destruct H as [H|H]);
    apply N.eqb_eq in H; auto.
Qed.

Lemma skip_ws_app_blank (s : list N) :
  skip_ws (s ++ t) = match skip_ws s with [] => [] | c :: r => c :: r ++ t end.
Proof.
  induction s as [|c s IH]; cbn [app skip_ws].
  - apply (skip_ws_blank t Ht).
  - destruct (is_ws c); [exact IH | reflexivity].
Qed.

Lemma with_rest_cons_to {A : Type} (a : A) (o : option (list A * list N)) :
  with_rest t (cons_to a o) = cons_to a (with_rest t o).
Proof. destruct o as [[l r]|]; reflexivity. Qed.

Lemma strip_prefix_app_blank (lit : list N) :
  forallb (fun c => negb (is_ws c)) lit = true ->
  forall s,
    strip_prefix lit (s ++ t)
    = match strip_prefix lit s with Some r => Some (r ++ t) | None => None end.
Proof.
  induction lit as [|a lit IH]; intros Hlit s; [reflexivity|].
  cbn [forallb] in Hlit. apply andb_true_iff in Hlit. destruct Hlit as [Ha Hlit].
  apply negb_true_iff in Ha.
  destruct s as [|b s]; cbn [app strip_prefix].
  - destruct blank_cases as [->|(c & t' & -> & Hc & _)]; [reflexivity|].
    cbn [strip_prefix]. destruct (N.eqb_spec a c); [congruence | reflexivity].
  - destruct (a =? b); [apply (IH Hlit) | reflexivity].
Qed.

Lemma parse_string_body_blank (u : list N) :
  forallb is_ws u = true -> parse_string_body u = None.
Proof.
  induction u as [|c u IH]; [reflexivity|]. cbn [forallb]. intros H.
  apply andb_true_iff in H. destruct H as [Hc Hu].
  cbn [parse_string_body]. rewrite (IH Hu).
  destruct (ws_codes c Hc) as [-> | [-> | [-> | ->]]]; reflexivity.
Qed.

Lemma hex_value_ws (c : N) : is_ws c = true -> hex_value c = None.
Proof. intros H. destruct (ws_codes c H) as [-> | [-> | [-> | ->]]]; reflexivity. Qed.

Lemma simple_escape_ws (c : N) : is_ws c = true -> simple_escape c = None.
Proof. intros H. destruct (ws_codes c H) as [-> | [-> | [-> | ->]]]; reflexivity. Qed.

Lemma hex4_ws (a b c d : N) :
  is_ws a = true \/ is_ws b = true \/ is_ws c = true \/ is_ws d = true ->
  hex4 a b c d = None.
Proof.
  unfold hex4. intros [H|[H|[H|H]]]; rewrite (hex_value_ws _ H);
    repeat match goal with
           | |- context [match hex_value ?x with _ => _ end] =>
               destruct (hex_value x)
           end; reflexivity.
Qed.

(** The four characters after a backslash-u, when the text ends early and
    white space follows. *)
Lemma unicode_escape_cut (r2 : list N) :
  (length r2 < 4)%nat ->
  match r2 ++ t with
  | a :: b :: c' :: d :: r3 =>
      match hex4 a b c' d with
      | Some u => cons_to u (parse_string_body r3)
      | None => None
      end
  | _ => None
  end = None.
Proof.
  intros Hlen.
  assert (Hall : forall x, In x t -> is_ws x = true)
    by (apply forallb_forall; exact Ht).
  destruct r2 as [|a [|b [|c' [|d r3]]]]; cbn [length] in Hlen; try lia;
    cbn [app];
    destruct t as [|t1 [|t2 [|t3 [|t4 t5]]]]; try reflexivity;
    rewrite hex4_ws; try reflexivity; cbn [In] in Hall; auto 10.
Qed.

Lemma parse_string_body_app_blank (n : nat) :
  forall s, (length s <= n)%nat ->
            parse_string_body (s ++ t) = with_rest t (parse_string_body s).
Proof.
  induction n as [|n IH]; intros s Hn.
  - destruct s; [|cbn in Hn; lia]. cbn [app].
    rewrite (parse_string_body_blank t Ht). reflexivity.
  - destruct s as [|c s1].
    { cbn [app]. rewrite (parse_string_body_blank t Ht). reflexivity. }
    cbn [length] in Hn. cbn [app parse_string_body].
    destruct (c =? 34); [reflexivity|].
    destruct (c =? 92).
    { destruct s1 as [|e s2].
      - cbn [app]. destruct blank_cases as [->|(w & t' & -> & Hw & _)];
          [reflexivity|].
        rewrite (simple_escape_ws w Hw).
        destruct (ws_codes w Hw) as [-> | [-> | [-> | ->]]]; reflexivity.
      - cbn [length] in Hn. cbn [app].
        destruct (e =? 117).
        + destruct (Nat.lt_ge_cases (length s2) 4) as [Hshort|Hlong].
          * rewrite (unicode_escape_cut s2 Hshort).
            destruct s2 as [|a [|b [|c' [|d r3]]]]; try reflexivity.
            cbn [length] in Hshort. lia.
          * destruct s2 as [|a [|b [|c' [|d r3]]]]; cbn [length] in Hlong;
              try lia.
            cbn [app]. destruct (hex4 a b c' d); [|reflexivity].
            rewrite with_rest_cons_to, IH; [reflexivity|]. cbn [length] in Hn. lia.
        + destruct (simple_escape e); [|reflexivity].
          rewrite with_rest_cons_to, IH; [reflexivity | lia]. }
    destruct (c <? 32); [reflexivity|].
    rewrite with_rest_cons_to, IH; [reflexivity | lia].
Qed.

Lemma is_number_char_ws (c : N) : is_ws c = true -> is_number_char c = false.
Proof. intros H. destruct (ws_codes c H) as [-> | [-> | [-> | ->]]]; reflexivity. Qed.

Lemma span_app_blank (s : list N) :
  span is_number_char (s ++ t)
  = let (a, b) := span is_number_char s in (a, b ++ t).
Proof.
  induction s as [|c s IH]; cbn [app span].
  - destruct blank_cases as [->|(w & t' & -> & Hw & _)]; [reflexivity|].
    cbn [span]. rewrite (is_number_char_ws w Hw). reflexivity.
  - destruct (is_number_char c); [|reflexivity].
    rewrite IH. destruct (span is_number_char s). reflexivity.
Qed.

Lemma parse_atom_app_blank (c : N) (r : list N) :
  parse_atom c (r ++ t) = with_rest t (parse_atom c r).
Proof.
  unfold parse_atom, literal.
  repeat match goal with
         | |- context [if (c =? ?k) then _ else _] => destruct (c =? k)
         end.
  - rewrite strip_prefix_app_blank by reflexivity.
    destruct (strip_prefix _ r); reflexivity.
  - rewrite strip_prefix_app_blank by reflexivity.
    destruct (strip_prefix _ r); reflexivity.
  - rewrite strip_prefix_app_blank by reflexivity.
    destruct (strip_prefix _ r); reflexivity.
  - rewrite (parse_string_body_app_blank (length r) r (le_n _)).
    destruct (parse_string_body r) as [[k rest]|]; reflexivity.
  - destruct (is_number_char c) eqn:Ec; [|reflexivity].
    change (c :: r ++ t) with ((c :: r) ++ t). rewrite span_app_blank.
    destruct (span is_number_char (c :: r)) as [tok rest].
    destruct (parse_number_token tok); reflexivity.
Qed.

Lemma parse_atom_ws (c : N) (r : list N) : is_ws c = true -> parse_atom c r = None.
Proof.
  intros H. unfold parse_atom.
  destruct (ws_codes c H) as [-> | [-> | [-> | ->]]]; reflexivity.
Qed.

Lemma parse_value_blank (f : nat) : parse_value f t = None.
Proof.
  destruct f; [reflexivity|].
  destruct blank_cases as [->|(w & t' & -> & Hw & _)]; [reflexivity|].
  cbn [parse_value]. rewrite (parse_atom_ws w t' Hw).
  destruct (ws_codes w Hw) as [-> | [-> | [-> | ->]]]; reflexivity.
Qed.

Lemma parse_elements_blank (f : nat) : parse_elements f t = None.
Proof.
  destruct f; [reflexivity|]. cbn [parse_elements].
  rewrite parse_value_blank. reflexivity.
Qed.

Lemma parse_members_blank (f : nat) : parse_members f t = None.
Proof.
  destruct f; [reflexivity|].
  destruct blank_cases as [->|(w & t' & -> & Hw & _)]; [reflexivity|].
  cbn [parse_members].
  destruct (ws_codes w Hw) as [-> | [-> | [-> | ->]]]; reflexivity.
Qed.

Lemma parse_elements_nil (f : nat) : parse_elements f [] = None.
Proof. destruct f; [reflexivity|]. cbn [parse_elements]. rewrite parse_value_nil. reflexivity. Qed.

Lemma parse_members_nil (f : nat) : parse_members f [] = None.
Proof. destruct f; reflexivity. Qed.

(** White space behind the input changes nothing but the rest. *)
Lemma parse_value_app_blank (f : nat) :
  (forall s, parse_value f (s ++ t) = with_rest t (parse_value f s)) /\
  (forall s, parse_elements f (s ++ t) = with_rest t (parse_elements f s)) /\
  (forall s, parse_members f (s ++ t) = with_rest t (parse_members f s)).
Proof.
  induction f as [|f (IHv & IHe & IHm)]; [repeat split; reflexivity|].
  split; [|split].
  - intros s. destruct s as [|c r].
    { cbn [app]. rewrite parse_value_blank. reflexivity. }
    cbn [app parse_value].
    destruct (c =? 91); [|destruct (c =? 123)].
    + rewrite skip_ws_app_blank. destruct (skip_ws r) as [|c1 r1]; [reflexivity|].
      destruct (c1 =? 93); [reflexivity|].
      change (c1 :: r1 ++ t) with ((c1 :: r1) ++ t). rewrite IHe.
      destruct (parse_elements f (c1 :: r1)) as [[items rest]|]; reflexivity.
    + rewrite skip_ws_app_blank. destruct (skip_ws r) as [|c1 r1]; [reflexivity|].
      destruct (c1 =? 125); [reflexivity|].
      change (c1 :: r1 ++ t) with ((c1 :: r1) ++ t). rewrite IHm.
      destruct (parse_members f (c1 :: r1)) as [[members rest]|]; reflexivity.
    + apply parse_atom_app_blank.
  - intros s. cbn [parse_elements]. rewrite IHv.
    destruct (parse_value f s) as [[v r1]|]; [|reflexivity]. cbn [with_rest].
    rewrite skip_ws_app_blank. destruct (skip_ws r1) as [|c r2]; [reflexivity|].
    destruct (c =? 44); [|destruct (c =? 93); reflexivity].
    rewrite skip_ws_app_blank, with_rest_cons_to.
    destruct (skip_ws r2) as [|c2 r3].
    + rewrite parse_elements_nil. reflexivity.
    + change (c2 :: r3 ++ t) with ((c2 :: r3) ++ t). rewrite IHe. reflexivity.
  - intros s. destruct s as [|q r].
    { cbn [app]. rewrite parse_members_blank. reflexivity. }
    cbn [app parse_members].
    destruct (q =? 34); [|reflexivity].
    rewrite (parse_string_body_app_blank (length r) r (le_n _)).
    destruct (parse_string_body r) as [[k r1]|]; [|reflexivity]. cbn [with_rest].
    rewrite skip_ws_app_blank. destruct (skip_ws r1) as [|c r2]; [reflexivity|].
    destruct (c =? 58); [|reflexivity].
    rewrite skip_ws_app_blank.
    destruct (skip_ws r2) as [|c2 r3].
    { rewrite parse_value_nil. reflexivity. }
    change (c2 :: r3 ++ t) with ((c2 :: r3) ++ t). rewrite IHv.
    destruct (parse_value f (c2 :: r3)) as [[v r4]|]; [|reflexivity].
    cbn [with_rest].
    rewrite skip_ws_app_blank. destruct (skip_ws r4) as [|c' r5]; [reflexivity|].
    destruct (c' =? 44); [|destruct (c' =? 125); reflexivity].
    rewrite skip_ws_app_blank, with_rest_cons_to.
    destruct (skip_ws r5) as [|c3 r6].
    + rewrite parse_members_nil. reflexivity.
    + change (c3 :: r6 ++ t) with ((c3 :: r6) ++ t). rewrite IHm. reflexivity.
Qed.

Lemma denotes_app_blank (json : text) (v : jvalue) :
  denotes (json ++ t) v <-> denotes json v.
Proof.
  unfold denotes. rewrite skip_ws_app_blank.
  destruct (skip_ws json) as [|c r] eqn:E.
  - split; intros (fuel & rest & H & _); rewrite parse_value_nil in H;
      discriminate.
  - change (c :: r ++ t) with ((c :: r) ++ t). split.
    + intros (fuel & rest & H & Hrest).
      rewrite (proj1 (parse_value_app_blank fuel)) in H.
      destruct (parse_value fuel (c :: r)) as [[v' r']|] eqn:Ep; [|discriminate].
      inversion H; subst. exists fuel, r'. split; [exact Ep|].
      rewrite skip_ws_app_blank in Hrest.
      destruct (skip_ws r'); [reflexivity | discriminate].
    + intros (fuel & rest & H & Hrest).
      exists fuel, (rest ++ t).
      rewrite (proj1 (parse_value_app_blank fuel)), H.
      split; [reflexivity|]. rewrite skip_ws_app_blank, Hrest. reflexivity.
Qed.

End TrailingWhiteSpace.

Lemma skip_ws_blank_app (w s : list N) :
  forallb is_ws w = true -> skip_ws (w ++ s) = skip_ws s.
Proof.
  induction w as [|c w IH]; [reflexivity|]. cbn [forallb app skip_ws].
  intros H. apply andb_true_iff in H. destruct H as [Hc Hw].
  rewrite Hc. exact (IH Hw).
Qed.

Lemma denotes_surrounded (before after json : text) (v : jvalue) :
  forallb is_ws before = true -> forallb is_ws after = true ->
  (denotes (before ++ json ++ after) v <-> denotes json v).
Proof.
  intros Hb Ha. rewrite <- (denotes_app_blank after Ha json v).
  unfold denotes. rewrite (skip_ws_blank_app before _ Hb). reflexivity.
Qed.

(** X15: white space before and after the text makes no difference:
    [fromJSON(p, before + json + after)] is [fromJSON(p, json)], result or
    error, when [before] and [after] consist of spaces, tabs, line feeds and
    carriage returns. *)
Theorem fromJSON_ignores_surrounding_white_space
    (p : proto) (before after json : text) :
  forallb is_ws before = true -> forallb is_ws after = true ->
  fromJSON p (before ++ json ++ after) = fromJSON p json.
Proof.
  intros Hb Ha. unfold fromJSON.
  destruct (JSON.parse json) as [v|e] eqn:E.
  - apply parse_returns_iff in E.
    apply (denotes_surrounded before after json v Hb Ha) in E.
    apply parse_returns_iff in E. rewrite E. reflexivity.
  - apply parse_throws_iff in E. destruct E as [-> Hno].
    assert (E : JSON.parse (before ++ json ++ after) = Throws SyntaxError).
    { apply parse_throws_iff. split; [reflexivity|].
      intros (v & Hv). apply Hno. exists v.
      apply (denotes_surrounded before after json v Hb Ha). exact Hv. }
    rewrite E. reflexivity.
Qed.

Lemma fromJSON_ignores_surrounding_white_space_witness :
  fromJSON (prototype_of "Circle") ([10; 32] ++ units "[1,2]" ++ [13; 10])
  = fromJSON (prototype_of "Circle") (units "[1,2]").
Proof.
  apply (fromJSON_ignores_surrounding_white_space
           (prototype_of "Circle") [10; 32] [13; 10] (units "[1,2]"));
    reflexivity.
Defined.


(** ** Numbers that are not finite *)

(** X16: [NaN], [Infinity] and [-Infinity] are written as [null]; read
    back, an array element that held such a number is [null], and
    [fromJSON] on the text of such a number alone throws the [TypeError]. *)
Theorem getJSON_writes_non_finite_as_null (n : float) (p q : proto) :
  is_finite n = false ->
  getJSON (JNumber n) = units "null" /\
  fromJSON p (getJSON (JNumber n)) = Throws TypeError /\
  fromJSON p (getJSON (JArray q [JNumber n])) = Returns (JArray p [JNull]).
Proof.
  intros H. unfold getJSON. cbn [stringify]. rewrite H.
  repeat split; reflexivity.
Qed.

Lemma getJSON_writes_non_finite_as_null_witness :
  getJSON (JNumber infinity) = units "null" /\
  fromJSON (prototype_of "Circle") (getJSON (JNumber infinity))
  = Throws TypeError /\
  fromJSON (prototype_of "Circle")
    (getJSON (JArray Array_prototype [JNumber infinity]))
  = Returns (JArray (prototype_of "Circle") [JNull]).
Proof.
  apply (getJSON_writes_non_finite_as_null infinity (prototype_of "Circle")
           Array_prototype).
  reflexivity.
Defined.

(** ** Texts of objects, member by member *)

Section FollowingText.
Variable t : list N.
Hypothesis Ht : boundary t.

Lemma skip_ws_app_found (s : list N) (c : N) (r : list N) :
  skip_ws s = c :: r -> skip_ws (s ++ t) = c :: r ++ t.
Proof.
  induction s as [|d s IH]; cbn [app skip_ws]; [discriminate|].
  destruct (is_ws d); [exact IH|]. intros H. inversion H. reflexivity.
Qed.

Lemma strip_prefix_app (lit : list N) :
  forall s r, strip_prefix lit s = Some r ->
              strip_prefix lit (s ++ t) = Some (r ++ t).
Proof.
  induction lit as [|a lit IH]; intros s r H.
  - inversion H. reflexivity.
  - destruct s as [|b s]; [discriminate|]. cbn [app strip_prefix] in *.
    destruct (a =? b); [apply IH; exact H | discriminate].
Qed.

Lemma cons_to_app {A : Type} (a : A) (o o' : option (list A * list N))
      (l : list A) (r : list N) :
  (forall l' r', o = Some (l', r') -> o' = Some (l', r' ++ t)) ->
  cons_to a o = Some (l, r) -> cons_to a o' = Some (l, r ++ t).
Proof.
  intros H E. destruct o as [[l' r']|]; [|discriminate].
  inversion E; subst. rewrite (H l' r eq_refl). reflexivity.
Qed.

Lemma parse_string_body_app (n : nat) :
  forall s k r,
    (length s <= n)%nat ->
    parse_string_body s = Some (k, r) ->
    parse_string_body (s ++ t) = Some (k, r ++ t).
Proof.
  induction n as [|n IH]; intros s k r Hn H.
  - destruct s; [discriminate | cbn in Hn; lia].
  - destruct s as [|c s1]; [discriminate|]. cbn [length] in Hn.
    cbn [app parse_string_body] in *.
    destruct (c =? 34).
    { inversion H; subst. reflexivity. }
    destruct (c =? 92).
    { destruct s1 as [|e s2]; [discriminate|]. cbn [length] in Hn.
      cbn [app]. destruct (e =? 117).
      - destruct s2 as [|a [|b [|c' [|d s3]]]]; try discriminate.
        cbn [length] in Hn. cbn [app].
        destruct (hex4 a b c' d); [|discriminate].
        eapply cons_to_app; [|exact H].
        intros l' r' E. apply IH; [lia | exact E].
      - destruct (simple_escape e); [|discriminate].
        eapply cons_to_app; [|exact H].
        intros l' r' E. apply IH; [lia | exact E]. }
    destruct (c <? 32); [discriminate|].
    eapply cons_to_app; [|exact H].
    intros l' r' E. apply IH; [lia | exact E].
Qed.

Lemma span_app_boundary (s : list N) :
  span is_number_char (s ++ t)
  = let (a, b) := span is_number_char s in (a, b ++ t).
Proof.
  induction s as [|c s IH]; cbn [app span].
  - unfold boundary in Ht. destruct t as [|w t']; [reflexivity|].
    cbn [span]. rewrite Ht. reflexivity.
  - destruct (is_number_char c); [|reflexivity].
    rewrite IH. destruct (span is_number_char s). reflexivity.
Qed.

Lemma parse_atom_app (c : N) (r : list N) (v : jvalue) (rest : list N) :
  parse_atom c r = Some (v, rest) ->
  parse_atom c (r ++ t) = Some (v, rest ++ t).
Proof.
  unfold parse_atom, literal. intros H.
  repeat match type of H with
         | (if (c =? ?k) then _ else _) = _ => destruct (c =? k)
         end.
  - destruct (strip_prefix _ r) eqn:E; [|discriminate]. inversion H; subst.
    rewrite (strip_prefix_app _ _ _ E). reflexivity.
  - destruct (strip_prefix _ r) eqn:E; [|discriminate]. inversion H; subst.
    rewrite (strip_prefix_app _ _ _ E). reflexivity.
  - destruct (strip_prefix _ r) eqn:E; [|discriminate]. inversion H; subst.
    rewrite (strip_prefix_app _ _ _ E). reflexivity.
  - destruct (parse_string_body r) as [[k rest']|] eqn:E; [|discriminate].
    inversion H; subst.
    rewrite (parse_string_body_app _ _ _ _ (le_n _) E). reflexivity.
  - destruct (is_number_char c) eqn:Ec; [|discriminate].
    change (c :: r ++ t) with ((c :: r) ++ t). rewrite span_app_boundary.
    destruct (span is_number_char (c :: r)) as [tok rest'].
    destruct (parse_number_token tok); [|discriminate].
    inversion H; subst. reflexivity.
Qed.

(** A value that is read from [s] is read alike when [t] follows. *)
Lemma parse_value_app (f : nat) :
  (forall s v r, parse_value f s = Some (v, r) ->
                 parse_value f (s ++ t) = Some (v, r ++ t)) /\
  (forall s vs r, parse_elements f s = Some (vs, r) ->
                  parse_elements f (s ++ t) = Some (vs, r ++ t)) /\
  (forall s ms r, parse_members f s = Some (ms, r) ->
                  parse_members f (s ++ t) = Some (ms, r ++ t)).
Proof.
  induction f as [|f (IHv & IHe & IHm)];
    [repeat split; intros; discriminate|].
  split; [|split].
  - intros s v r H. cbn [parse_value] in H.
    destruct s as [|c r0]; [discriminate|]. cbn [app parse_value].
    destruct (c =? 91); [|destruct (c =? 123)].
    + destruct (skip_ws r0) as [|c1 r1] eqn:Ews; [discriminate|].
      rewrite (skip_ws_app_found _ _ _ Ews).
      destruct (c1 =? 93); [inversion H; reflexivity|].
      destruct (parse_elements f (c1 :: r1)) as [[items rest]|] eqn:Ee;
        [|discriminate].
      inversion H; subst.
      change (c1 :: r1 ++ t) with ((c1 :: r1) ++ t).
      rewrite (IHe _ _ _ Ee). reflexivity.
    + destruct (skip_ws r0) as [|c1 r1] eqn:Ews; [discriminate|].
      rewrite (skip_ws_app_found _ _ _ Ews).
      destruct (c1 =? 125); [inversion H; reflexivity|].
      destruct (parse_members f (c1 :: r1)) as [[members rest]|] eqn:Em;
        [|discriminate].
      inversion H; subst.
      change (c1 :: r1 ++ t) with ((c1 :: r1) ++ t).
      rewrite (IHm _ _ _ Em). reflexivity.
    + apply parse_atom_app. exact H.
  - intros s vs r H. cbn [parse_elements] in *.
    destruct (parse_value f s) as [[v r1]|] eqn:Ev; [|discriminate].
    rewrite (IHv _ _ _ Ev).
    destruct (skip_ws r1) as [|c r2] eqn:Ews; [discriminate|].
    rewrite (skip_ws_app_found _ _ _ Ews).
    destruct (c =? 44); [|destruct (c =? 93); [|discriminate]].
    + eapply cons_to_app; [|exact H]. intros l' r' E.
      destruct (skip_ws r2) as [|c2 r3] eqn:Ews2.
      { rewrite parse_elements_nil in E. discriminate. }
      rewrite (skip_ws_app_found _ _ _ Ews2).
      change (c2 :: r3 ++ t) with ((c2 :: r3) ++ t). apply IHe. exact E.
    + inversion H; subst. reflexivity.
  - intros s ms r H. cbn [parse_members] in H.
    destruct s as [|q r0]; [discriminate|]. cbn [app parse_members].
    destruct (q =? 34); [|discriminate].
    destruct (parse_string_body r0) as [[k r1]|] eqn:Ek; [|discriminate].
    rewrite (parse_string_body_app _ _ _ _ (le_n _) Ek).
    destruct (skip_ws r1) as [|c r2] eqn:Ews1; [discriminate|].
    rewrite (skip_ws_app_found _ _ _ Ews1).
    destruct (c =? 58); [|discriminate].
    destruct (skip_ws r2) as [|c2 r3] eqn:Ews2.
    { rewrite parse_value_nil in H. discriminate. }
    rewrite (skip_ws_app_found _ _ _ Ews2).
    destruct (parse_value f (c2 :: r3)) as [[v r4]|] eqn:Ev; [|discriminate].
    change (c2 :: r3 ++ t) with ((c2 :: r3) ++ t). rewrite (IHv _ _ _ Ev).
    destruct (skip_ws r4) as [|c' r5] eqn:Ews4; [discriminate|].
    rewrite (skip_ws_app_found _ _ _ Ews4).
    destruct (c' =? 44); [|destruct (c' =? 125); [|discriminate]].
    + eapply cons_to_app; [|exact H]. intros l' r' E.
      destruct (skip_ws r5) as [|c3 r6] eqn:Ews5.
      { rewrite parse_members_nil in E. discriminate. }
      rewrite (skip_ws_app_found _ _ _ Ews5).
      change (c3 :: r6 ++ t) with ((c3 :: r6) ++ t). apply IHm. exact E.
    + inversion H; subst. reflexivity.
Qed.

End FollowingText.

Lemma skip_ws_app_blank_rest (r s : list N) :
  skip_ws r = [] -> skip_ws (r ++ s) = skip_ws s.
Proof.
  induction r as [|c r IH]; [reflexivity|]. cbn [app skip_ws].
  destruct (is_ws c); [exact IH | discriminate].
Qed.

(** The text of a value inside a longer text: what [JSON.parse] returns
    for the text alone is what the descent reads when a comma or a closing
    brace follows. *)
Lemma parse_value_inside (t : text) (v : jvalue) (c : N) (tail : list N) (f : nat) :
  JSON.parse t = Returns v ->
  is_number_char c = false -> is_ws c = false ->
  (2 * length t <= f)%nat ->
  exists rest,
    parse_value f (skip_ws (t ++ c :: tail)) = Some (v, rest) /\
    skip_ws rest = c :: tail.
Proof.
  intros H Hc Hws Hf. apply parse_returns_iff in H.
  destruct H as (f0 & r0 & Hparse & Hrest).
  destruct (skip_ws t) as [|c0 s0] eqn:Ews.
  { rewrite parse_value_nil in Hparse. discriminate. }
  destruct (parse_fuel_adequate f0) as (Hv & _ & _).
  destruct (Hv _ _ _ Hparse) as [Hlen Hfuel].
  pose proof (skip_ws_length t) as Hl. rewrite Ews in Hl.
  assert (Hg : parse_value f (c0 :: s0) = Some (v, r0)) by (apply Hfuel; lia).
  exists (r0 ++ c :: tail).
  rewrite (skip_ws_app_found (c :: tail) _ _ _ Ews).
  change (c0 :: s0 ++ c :: tail) with ((c0 :: s0) ++ c :: tail).
  split.
  - apply (proj1 (parse_value_app (c :: tail) Hc f)). exact Hg.
  - rewrite (skip_ws_app_blank_rest _ _ Hrest). apply skip_ws_head. exact Hws.
Qed.

(** The members of an object text are read in order, each value as
    [JSON.parse] reads its text. *)
Lemma parse_members_text (members : list (list N * text)) :
  forall (k : list N) (t : text) (v : jvalue) (vs : list jvalue) (fuel : nat),
    valid_string k ->
    Forall (fun kt => valid_string (fst kt)) members ->
    JSON.parse t = Returns v ->
    Forall2 (fun kt x => JSON.parse (snd kt) = Returns x) members vs ->
    (2 * length (t ++ members_text members) + 1 <= fuel)%nat ->
    parse_members fuel (quote k ++ 58 :: t ++ members_text members)
    = Some ((k, v) :: List.combine (map fst members) vs, []).
Proof.
  induction members as [|[k' t'] members IH];
    intros k t v vs fuel Hk Hks Ht Hvs Hfuel;
    (destruct fuel as [|f]; [lia|]);
    rewrite length_app in Hfuel;
    unfold quote; cbn [app parse_members N.eqb Pos.eqb];
    rewrite (parse_quote_body k _ Hk);
    cbn [skip_ws is_ws N.eqb Pos.eqb orb].
  - inversion Hvs; subst. cbn [members_text].
    destruct (parse_value_inside t v 125 [] f Ht eq_refl eq_refl)
      as (rest & Hp & Hr); [lia|].
    rewrite Hp, Hr. reflexivity.
  - inversion Hvs as [|? x ? vs' Hx Hvs']; subst. cbn [snd] in Hx.
    inversion Hks as [|? ? Hk' Hks']; subst. cbn [fst] in Hk'.
    cbn [members_text] in *. cbn [length] in Hfuel.
    destruct (parse_value_inside t v 44
                (quote k' ++ 58 :: t' ++ members_text members) f
                Ht eq_refl eq_refl)
      as (rest & Hp & Hr); [lia|].
    rewrite Hp, Hr. cbn [N.eqb Pos.eqb]. rewrite skip_ws_quote.
    rewrite (IH k' t' x vs' f Hk' Hks' Hx Hvs').
    + reflexivity.
    + repeat (rewrite length_app in Hfuel || cbn [length] in Hfuel).
      rewrite length_app. lia.
Qed.

(** What [JSON.parse] makes of an object text: the members' values,
    defined one after the other as properties. *)
Lemma parse_object_text (members : list (list N * text)) (vs : list jvalue) :
  Forall (fun kt => valid_string (fst kt)) members ->
  Forall2 (fun kt x => JSON.parse (snd kt) = Returns x) members vs ->
  JSON.parse (object_text members)
  = Returns (JObject Object_prototype
               (build_object (List.combine (map fst members) vs))).
Proof.
  intros Hks Hvs. apply parse_returns_iff.
  destruct members as [|[k t] members].
  - inversion Hvs; subst. exists 1%nat, []. split; reflexivity.
  - inversion Hvs as [|? x ? vs' Hx Hvs']; subst. cbn [snd] in Hx.
    inversion Hks as [|? ? Hk Hks']; subst. cbn [fst] in Hk.
    exists (S (2 * length (t ++ members_text members) + 1)), [].
    split; [|reflexivity].
    unfold object_text. cbn [skip_ws is_ws N.eqb Pos.eqb orb].
    cbn [parse_value N.eqb Pos.eqb]. rewrite skip_ws_quote.
    unfold quote at 1. cbn [app N.eqb Pos.eqb]. fold (quote k).
    change (34 :: quote_body k ++ 58 :: t ++ members_text members)
      with (quote k ++ 58 :: t ++ members_text members).
    rewrite (parse_members_text members k t x vs' _ Hk Hks' Hx Hvs' (le_n _)).
    reflexivity.
Qed.

(** ** A key written twice *)

Lemma units_eqb_refl (k : list N) : units_eqb k k = true.
Proof.
  induction k as [|c k IH]; [reflexivity|].
  cbn [units_eqb]. rewrite N.eqb_refl, IH. reflexivity.
Qed.

Lemma define_first_property (k : list N) (v : jvalue) :
  define_property [] (k, v) = [(k, v)].
Proof.
  unfold define_property. cbn [has_key].
  destruct (array_index k); reflexivity.
Qed.

(** X17: when the text of an object gives the same key twice,
    [{"k":t1,"k":t2}] with [t1] and [t2] texts that [JSON.parse] accepts,
    [fromJSON] returns an object with the one property [k], holding the
    value of the second text. *)
Theorem fromJSON_duplicate_key_keeps_last
    (p : proto) (k : list N) (t1 t2 : text) (v1 v2 : jvalue) :
  valid_string k ->
  JSON.parse t1 = Returns v1 ->
  JSON.parse t2 = Returns v2 ->
  fromJSON p (object_text [(k, t1); (k, t2)]) = Returns (JObject p [(k, v2)]).
Proof.
  intros Hk H1 H2. unfold fromJSON.
  rewrite (parse_object_text [(k, t1); (k, t2)] [v1; v2]).
  - cbn [map fst List.combine]. unfold build_object. cbn [fold_left].
    rewrite define_first_property. unfold define_property.
    cbn [has_key]. rewrite units_eqb_refl. cbn [orb replace_value].
    rewrite units_eqb_refl. reflexivity.
  - repeat constructor; assumption.
  - repeat constructor; assumption.
Qed.

Lemma fromJSON_duplicate_key_keeps_last_witness :
  fromJSON (prototype_of "Circle")
    (object_text [(units "radius", units "1"); (units "radius", units "-0")])
  = Returns (JObject (prototype_of "Circle") [(units "radius", JNumber (-0))]).
Proof.
  apply (fromJSON_duplicate_key_keeps_last (prototype_of "Circle")
           (units "radius") (units "1") (units "-0") (JNumber 1) (JNumber (-0))).
  - repeat constructor.
  - reflexivity.
  - reflexivity.
Defined.

(** ** The characters of the text *)

Lemma digits_loop_printable (fuel : nat) :
  forall z acc, Forall printable acc -> Forall printable (digits_loop fuel z acc).
Proof.
  induction fuel as [|f IH]; intros z acc Hacc; [exact Hacc|].
  cbn [digits_loop].
  assert (Hacc' : Forall printable ((Z.to_N (z mod 10) + 48) :: acc))
    by (constructor; [unfold printable; lia | exact Hacc]).
  destruct (z <? 10)%Z; [exact Hacc' | apply IH; exact Hacc'].
Qed.

Lemma decimal_digits_printable (z : Z) : Forall printable (decimal_digits z).
Proof. apply digits_loop_printable. constructor. Qed.

Lemma zeros_printable (n : Z) : Forall printable (zeros n).
Proof.
  unfold zeros. induction (Z.to_nat n) as [|m IH]; cbn [repeat];
    constructor; [unfold printable; lia | exact IH].
Qed.

Lemma firstn_printable (n : nat) (l : list N) :
  Forall printable l -> Forall printable (firstn n l).
Proof.
  intros H. rewrite <- (firstn_skipn n l) in H. apply Forall_app in H. tauto.
Qed.

Lemma skipn_printable (n : nat) (l : list N) :
  Forall printable l -> Forall printable (skipn n l).
Proof.
  intros H. rewrite <- (firstn_skipn n l) in H. apply Forall_app in H. tauto.
Qed.

Lemma exponent_part_printable (n : Z) : Forall printable (exponent_part n).
Proof.
  unfold exponent_part. constructor; [unfold printable; lia|].
  constructor; [destruct (0 <=? n - 1)%Z; unfold printable; lia|].
  apply decimal_digits_printable.
Qed.

Lemma format_printable (s k n : Z) : Forall printable (format s k n).
Proof.
  pose proof (decimal_digits_printable s) as Hd.
  assert (Hdot : printable 46) by (unfold printable; lia).
  assert (Hzero : printable 48) by (unfold printable; lia).
  unfold format.
  repeat match goal with
         | |- context [if ?b then _ else _] => destruct b
         end;
    repeat first [ apply zeros_printable
                 | apply exponent_part_printable
                 | apply firstn_printable
                 | apply skipn_printable
                 | assumption
                 | apply Forall_app; split
                 | apply Forall_cons ].
Qed.

Lemma units_printable (s : string) :
  forallb (fun c => 32 <=? c) (units s) = true -> Forall printable (units s).
Proof.
  intros H. apply Forall_forall. intros c Hc.
  apply (proj1 (forallb_forall _ _) H) in Hc. apply N.leb_le. exact Hc.
Qed.

Lemma Number_toString_printable (x : float) :
  Forall printable (Number_toString x).
Proof.
  unfold Number_toString.
  destruct (Prim2SF x) as [s|s| |s m e].
  - apply units_printable. reflexivity.
  - destruct s; apply units_printable; reflexivity.
  - apply units_printable. reflexivity.
  - destruct (shortest m e) as [[d k] n].
    apply Forall_app. split; [|apply format_printable].
    destruct s; repeat constructor. unfold printable. lia.
Qed.

Lemma hex_digit_printable (d : N) : printable (hex_digit d).
Proof. unfold hex_digit, printable. destruct (d <? 10); lia. Qed.

Lemma escape_printable (u : N) : Forall printable (escape u).
Proof.
  unfold escape.
  repeat match goal with
         | |- context [if (u =? ?k) then _ else _] =>
             destruct (N.eqb_spec u k);
             [repeat constructor; unfold printable; lia|]
         end.
  destruct (u <? 32) eqn:E; cbn [orb].
  - unfold unicode_escape.
    repeat constructor; try apply hex_digit_printable; unfold printable; lia.
  - apply N.ltb_ge in E.
    destruct (is_lead u || is_trail u)%bool.
    + unfold unicode_escape.
      repeat constructor; try apply hex_digit_printable; unfold printable; lia.
    + repeat constructor. exact E.
Qed.

Lemma quote_body_printable (n : nat) :
  forall s, (length s <= n)%nat -> Forall printable (quote_body s).
Proof.
  induction n as [|n IH]; intros s Hn.
  - destruct s; [|cbn in Hn; lia]. repeat constructor. unfold printable. lia.
  - destruct s as [|u [|v s2]]; cbn [length] in Hn.
    + repeat constructor. unfold printable. lia.
    + cbn [quote_body]. apply Forall_app. split; [apply escape_printable|].
      repeat constructor. unfold printable. lia.
    + change (quote_body (u :: v :: s2))
        with (if (is_lead u && is_trail v)%bool
              then u :: v :: quote_body s2
              else escape u ++ quote_body (v :: s2)).
      destruct (is_lead u && is_trail v)%bool eqn:E.
      * apply andb_true_iff in E. destruct E as [Eu Ev].
        unfold is_lead in Eu. unfold is_trail in Ev.
        apply andb_true_iff in Eu, Ev. destruct Eu as [Eu _], Ev as [Ev _].
        apply N.leb_le in Eu, Ev.
        constructor; [unfold printable; lia|].
        constructor; [unfold printable; lia|].
        apply IH. lia.
      * apply Forall_app. split; [apply escape_printable|].
        apply IH. cbn [length]. lia.
Qed.

Lemma quote_printable (s : list N) : Forall printable (quote s).
Proof.
  unfold quote. constructor; [unfold printable; lia|].
  apply (quote_body_printable (length s)). apply le_n.
Qed.

Lemma elements_tail_printable (items : list jvalue) :
  Forall (fun v => Forall printable (stringify v)) items ->
  Forall printable (elements_tail stringify items).
Proof.
  induction 1 as [|y items Hy _ IH]; cbn [elements_tail].
  - repeat constructor. unfold printable. lia.
  - constructor; [unfold printable; lia|]. apply Forall_app. auto.
Qed.

Lemma members_tail_printable (props : list (list N * jvalue)) :
  Forall (fun kv => Forall printable (stringify (snd kv))) props ->
  Forall printable (members_tail stringify props).
Proof.
  induction 1 as [|[k y] props Hy _ IH]; cbn [members_tail snd] in *.
  - repeat constructor. unfold printable. lia.
  - constructor; [unfold printable; lia|].
    apply Forall_app. split; [apply quote_printable|].
    constructor; [unfold printable; lia|]. apply Forall_app. auto.
Qed.

(** X18: the text [getJSON] returns, for any value, holds no control
    character: no line break, no tab, nothing below the space.  Inside
    strings such characters are written as escapes. *)
Theorem getJSON_text_has_no_control_character (v : jvalue) :
  Forall (fun c => 32 <= c) (getJSON v).
Proof.
  unfold getJSON. change (Forall printable (stringify v)).
  induction v as [|b|n|s|p items IH|p props IH] using value_induction.
  - apply units_printable. reflexivity.
  - destruct b; apply units_printable; reflexivity.
  - cbn [stringify]. destruct (is_finite n);
      [apply Number_toString_printable | apply units_printable; reflexivity].
  - apply quote_printable.
  - cbn [stringify]. constructor; [unfold printable; lia|].
    destruct items as [|x items]; [repeat constructor; unfold printable; lia|].
    inversion IH as [|? ? Hx IH']; subst.
    apply Forall_app. split; [exact Hx | apply elements_tail_printable; exact IH'].
  - cbn [stringify]. constructor; [unfold printable; lia|].
    destruct props as [|[k x] props]; [repeat constructor; unfold printable; lia|].
    inversion IH as [|? ? Hx IH']; subst. cbn [snd] in Hx.
    apply Forall_app. split; [apply quote_printable|].
    constructor; [unfold printable; lia|].
    apply Forall_app. split; [exact Hx | apply members_tail_printable; exact IH'].
Qed.

(** ** The order of the properties *)

Lemma units_eqb_eq (a b : list N) : units_eqb a b = true <-> a = b.
Proof.
  revert b. induction a as [|x a IH]; intros [|y b]; cbn [units_eqb];
    split; intros H; try reflexivity; try discriminate.
  - apply andb_true_iff in H. destruct H as [Hx Ha].
    apply N.eqb_eq in Hx. apply IH in Ha. congruence.
  - inversion H; subst. rewrite N.eqb_refl. apply IH. reflexivity.
Qed.

Lemma has_key_absent (k : list N) (props : list (list N * jvalue)) :
  ~ In k (map fst props) -> has_key k props = false.
Proof.
  induction props as [|[k' v] props IH]; [reflexivity|].
  cbn [map fst In has_key]. intros H.
  destruct (units_eqb k k') eqn:E.
  - apply units_eqb_eq in E. exfalso. apply H. left. congruence.
  - apply IH. intros Hin. apply H. right. exact Hin.
Qed.

Lemma fold_define_appends (members : list (list N * jvalue)) :
  forall acc,
    NoDup (map fst acc ++ map fst members) ->
    Forall (fun kv => array_index (fst kv) = None) members ->
    fold_left define_property members acc = acc ++ members.
Proof.
  induction members as [|[k v] members IH]; intros acc Hnd Hidx.
  - cbn [fold_left]. rewrite app_nil_r. reflexivity.
  - inversion Hidx as [|? ? Hk Hidx']; subst. cbn [fst] in Hk.
    cbn [fold_left map fst] in *.
    assert (Hfresh : ~ In k (map fst acc)).
    { apply NoDup_remove_2 in Hnd. intros Hin. apply Hnd.
      apply in_or_app. left. exact Hin. }
    unfold define_property at 2. rewrite (has_key_absent k acc Hfresh), Hk.
    rewrite IH.
    + rewrite <- app_assoc. reflexivity.
    + rewrite map_app, <- app_assoc. exact Hnd.
    + exact Hidx'.
Qed.

Lemma keys_of_combine {A B : Type} (l : list A) :
  forall l' : list B, length l = length l' -> map fst (List.combine l l') = l.
Proof.
  induction l as [|a l IH]; intros [|b l'] H; try discriminate; [reflexivity|].
  cbn [List.combine map fst]. rewrite IH; [reflexivity|]. cbn [length] in H. lia.
Qed.

(** X19: the properties of the object [fromJSON] returns are in the order
    of the text, when the keys of the text are distinct and none of them is
    an array index: for [{"k1":t1,...,"kn":tn}] with texts [ti] that
    [JSON.parse] accepts, the object has the properties [k1], ..., [kn] in
    this order, each with the value of its text. *)
Theorem fromJSON_keeps_property_order
    (p : proto) (members : list (list N * text)) (vs : list jvalue) :
  NoDup (map fst members) ->
  Forall (fun kt => array_index (fst kt) = None /\ valid_string (fst kt))
    members ->
  Forall2 (fun kt x => JSON.parse (snd kt) = Returns x) members vs ->
  fromJSON p (object_text members)
  = Returns (JObject p (List.combine (map fst members) vs)).
Proof.
  intros Hnd Hall Hvs. unfold fromJSON.
  rewrite (parse_object_text members vs); [|
    eapply Forall_impl; [|exact Hall]; intros kt (_ & Hk); exact Hk | exact Hvs].
  unfold build_object.
  rewrite (fold_define_appends (List.combine (map fst members) vs) []).
  - reflexivity.
  - assert (Hlen : length (map fst members) = length vs).
    { rewrite length_map. apply (Forall2_length Hvs). }
    cbn [map app]. rewrite (keys_of_combine _ _ Hlen). exact Hnd.
  - clear Hnd. revert vs Hvs.
    induction Hall as [|kt members (Hi & _) _ IH]; intros vs Hvs;
      inversion Hvs; subst; cbn [map List.combine]; constructor; auto.
Qed.

Lemma fromJSON_keeps_property_order_witness :
  fromJSON (prototype_of "Rectangle")
    (object_text [(units "width", units "10"); (units "height", units "20")])
  = Returns (JObject (prototype_of "Rectangle")
               [(units "width", JNumber 10); (units "height", JNumber 20)]).
Proof.
  apply (fromJSON_keeps_property_order (prototype_of "Rectangle")
           [(units "width", units "10"); (units "height", units "20")]
           [JNumber 10; JNumber 20]).
  - repeat constructor; cbn [In map fst];
      intros H; repeat destruct H as [H|H]; try discriminate; exact H.
  - repeat constructor.
  - repeat constructor.
Defined.

End JsonFacts.
